(** * PostgreSQL caching component: a shallow embedding of
      [postgresql/include/cache/base_postgres_cache.hpp]

    The C++ class template [components::PostgreCache<PostgreCachePolicy>] is
    embedded as functions over a [Policy] record (the template argument),
    a [PostgreCache] record (the data members) and explicit state passing
    for the objects the code mutates through references
    ([stats_scope], [data_cache], the published snapshot of the base class).
    Exceptions are values of [Exc]; a function that can be left by an
    exception after it has changed such an object returns the object
    with the exception. *)

From Stdlib Require Import ZArith String Ascii List Lia.
From Stdlib Require PrimFloat SpecFloat FloatOps.
From stdpp Require Import base option list gmap strings fin_maps.

Set Default Proof Using "Type".

(** ** Exceptions *)

(** What can be thrown: the exception classes the header names and
    [std::runtime_error] for the other classes derived from
    [std::exception], and [not_std_exception] for an object of any type
    that does not derive from [std::exception]. *)
Inductive Exception : Type :=
| logic_error (what : string)
| InvalidConfig (what : string)
| runtime_error (what : string)
| not_std_exception (object : string).

(** Whether a handler [catch (const std::exception&)] takes it. *)
Definition derives_from_std_exception (e : Exception) : bool :=
  match e with
  | not_std_exception _ => false
  | _ => true
  end.

Inductive Exc (A : Type) : Type :=
| Returns (a : A)
| Throws (e : Exception).
Arguments Returns {A} a.
Arguments Throws {A} e.

(** ** [storages::postgres::Query] and [fmt::format] *)

Record Query : Type := mkQuery {
  Statement : string;
  GetName : option string
}.

(** [fmt::format] restricted to what the header uses: every [{}] is
    replaced by the next argument, every other character is copied. *)
Fixpoint fmt_format (fmt : string) (args : list string) : string :=
  match fmt with
  | EmptyString => EmptyString
  | String "{" (String "}" rest) =>
      match args with
      | a :: args' => a +:+ fmt_format rest args'
      | [] => fmt_format rest []
      end
  | String c rest => String c (fmt_format rest args)
  end.

Inductive UpdateType : Type := kFull | kIncremental.

(** [cache::AllowedUpdateTypes] is declared outside this header, which
    names one enumerator, [kFullAndIncremental]; the others are not told
    apart. *)
Inductive AllowedUpdateTypes : Type :=
| kFullAndIncremental
| kOtherUpdateTypes.

Global Instance UpdateType_eq_dec : EqDecision UpdateType.
Proof. solve_decision. Defined.
Global Instance AllowedUpdateTypes_eq_dec : EqDecision AllowedUpdateTypes.
Proof. solve_decision. Defined.

(** ** The query part of a policy

    [kQuery]/[GetQuery()] (exactly one exists, [PolicyChecker::GetQuery]
    picks it), the optional [kWhere], and [kUpdatedField], which a policy
    must declare and may set to [nullptr] ([None]) or to an empty string. *)
Record QueryPolicy : Type := mkQueryPolicy {
  GetQuery : Query;
  kWhere : option string;
  kUpdatedField : option string
}.

(** [kWantIncrementalUpdates]: [!std::string_view{T::kUpdatedField}.empty()]
    is a valid constant expression that holds. *)
Definition kIncrementalUpdates (p : QueryPolicy) : bool :=
  match kUpdatedField p with
  | Some u => negb (String.eqb u EmptyString)
  | None => false
  end.

Definition GetAllQuery (p : QueryPolicy) : Query :=
  let query := GetQuery p in
  match kWhere p with
  | Some w => mkQuery (fmt_format "{} where {}" [Statement query; w])
                      (GetName query)
  | None => query
  end.

Definition GetDeltaQuery (p : QueryPolicy) : Query :=
  match kUpdatedField p with
  | Some u =>
      if negb (String.eqb u EmptyString) then
        let query := GetQuery p in
        match kWhere p with
        | Some w =>
            mkQuery (fmt_format "{} where ({}) and {} >= $1"
                                [Statement query; w; u])
                    (GetName query)
        | None =>
            mkQuery (fmt_format "{} where {} >= $1" [Statement query; u])
                    (GetName query)
        end
      else GetAllQuery p
  | None => GetAllQuery p
  end.

(** ** Exceptions as a monad (stdpp's [x ← e; k] notation) *)

Global Instance Exc_ret : MRet Exc := @Returns.
Global Instance Exc_bind : MBind Exc := λ A B f m,
  match m with
  | Returns a => f a
  | Throws e => Throws e
  end.

(** ** Collaborators that the header only uses

    [storages::postgres::CommandControl], the host-role flags, the
    statistics scope of [cache/cache_statistics.hpp] and the result of
    driving a portal are declared outside this header; they are modelled
    by the operations the header calls on them. *)

Record CommandControl : Type := mkCommandControl {
  network_timeout : Z;      (* std::chrono::milliseconds *)
  statement_timeout : Z     (* std::chrono::milliseconds *)
}.

Definition kDefaultFullUpdateTimeout : Z := 60 * 1000.
Definition kDefaultIncrementalUpdateTimeout : Z := 1 * 1000.
Definition kStatementTimeoutOff : Z := 0.

(** [std::chrono::system_clock::duration] counts nanoseconds in a signed
    64-bit integer; a [std::chrono::milliseconds] converts by this
    factor, and the product is taken modulo [2^64]. *)
Definition system_clock_ticks_per_milli : Z := 1000000.

Definition int64_wrap (z : Z) : Z := ((z + 2 ^ 63) mod 2 ^ 64 - 2 ^ 63)%Z.

(** ** Doubles

    [static_cast<double>(n)] for a [size_t] [n] is the binary64 value
    nearest to [n]; [static_cast<std::size_t>(x)] for a double [x] drops
    the fraction and is defined when the result is a [size_t]
    ([fits_size_t]); [size_t_of_double] is 0 where it is not. *)
Definition double_of_size_t (n : nat) : PrimFloat.float :=
  FloatOps.SF2Prim
    (SpecFloat.binary_normalize FloatOps.prec FloatOps.emax (Z.of_nat n) 0
                                false).

Definition double_trunc (x : PrimFloat.float) : option Z :=
  match FloatOps.Prim2SF x with
  | SpecFloat.S754_zero _ => Some 0%Z
  | SpecFloat.S754_finite sign m e =>
      let magnitude :=
        if (0 <=? e)%Z then (Z.pos m * 2 ^ e)%Z else (Z.pos m / 2 ^ (- e))%Z in
      Some (if sign then (- magnitude)%Z else magnitude)
  | _ => None
  end.

Definition fits_size_t (x : PrimFloat.float) : bool :=
  match double_trunc x with
  | Some z => (0 <=? z)%Z && (z <? 2 ^ 64)%Z
  | None => false
  end.

Definition size_t_of_double (x : PrimFloat.float) : nat :=
  if fits_size_t x then Z.to_nat (default 0%Z (double_trunc x)) else 0.

(** The floor of [changes / ratio] over the rationals, [ratio] a finite
    positive double taken at its exact value: the quotient as the
    specification words it. *)
Definition floor_of_exact_quotient (changes : nat) (ratio : PrimFloat.float)
  : option Z :=
  match FloatOps.Prim2SF ratio with
  | SpecFloat.S754_finite false m e =>
      Some (if (0 <=? e)%Z then (Z.of_nat changes / (Z.pos m * 2 ^ e))%Z
            else (Z.of_nat changes * 2 ^ (- e) / Z.pos m)%Z)
  | _ => None
  end.

Definition ClusterHostTypeFlags : Type := N.

Inductive FinishState : Type :=
| NotFinished
| Finish (size : nat)
| FinishNoChanges.

Record UpdateStatisticsScope : Type := mkStats {
  documents_read_count : nat;
  documents_parse_failures : nat;
  finished : FinishState
}.

Definition IncreaseDocumentsReadCount (n : nat) (s : UpdateStatisticsScope)
  : UpdateStatisticsScope :=
  mkStats (documents_read_count s + n) (documents_parse_failures s) (finished s).

Definition IncreaseDocumentsParseFailures (n : nat) (s : UpdateStatisticsScope)
  : UpdateStatisticsScope :=
  mkStats (documents_read_count s) (documents_parse_failures s + n) (finished s).

Definition stats_Finish (size : nat) (s : UpdateStatisticsScope)
  : UpdateStatisticsScope :=
  mkStats (documents_read_count s) (documents_parse_failures s) (Finish size).

Definition stats_FinishNoChanges (s : UpdateStatisticsScope)
  : UpdateStatisticsScope :=
  mkStats (documents_read_count s) (documents_parse_failures s) FinishNoChanges.

(** What [while (portal) { portal.Fetch(chunk_size_) ... } trx.Commit()]
    observes of one transaction: the result sets of the successive
    [Fetch] calls, ended by a commit that returns, or an exception from
    [Begin], [MakePortal], [Fetch] or [Commit]. *)
Inductive PortalRun (Row : Type) : Type :=
| Fetch (res : list Row) (next : PortalRun Row)
| Commit
| PortalThrows (e : Exception).
Arguments Fetch {Row} res next.
Arguments Commit {Row}.
Arguments PortalThrows {Row} e.

(** The rows a portal hands out before it is exhausted or throws, and the
    exception that ends it, if any. *)
Fixpoint portal_rows {Row : Type} (portal : PortalRun Row) : list Row :=
  match portal with
  | Fetch res next => res ++ portal_rows next
  | Commit => []
  | PortalThrows _ => []
  end.

Fixpoint portal_thrown {Row : Type} (portal : PortalRun Row)
  : option Exception :=
  match portal with
  | Fetch _ next => portal_thrown next
  | Commit => None
  | PortalThrows e => Some e
  end.

(** ** [RawValueType] and [ExtractValue] *)

Inductive RawPolicy (V : Type) : Type :=
| NoRawValueType
| HasRawValueType (Raw : Type) (Convert : Raw → Exc V).
Arguments NoRawValueType {V}.
Arguments HasRawValueType {V} Raw Convert.

(** [meta::DetectedOr<ValueType<T>, RawValueTypeImpl, T>] *)
Definition RawValueType {V : Type} (r : RawPolicy V) : Type :=
  match r with
  | NoRawValueType => V
  | HasRawValueType Raw _ => Raw
  end.

Definition ExtractValue {V : Type} (r : RawPolicy V)
  : RawValueType r → Exc V :=
  match r with
  | NoRawValueType => λ raw, Returns raw
  | HasRawValueType _ Convert => λ raw, Convert raw
  end.

(** ** The component *)

Section Model.
Context {K : Type} `{Countable K}.   (* KeyMemberType, std::hash-able *)
Context {V : Type}.                  (* ValueType *)
Context {Row : Type}.                (* a row of a ResultSet *)
Context {U : Type}.                  (* UpdatedFieldType *)
Context {Cluster : Type}.            (* storages::postgres::Cluster *)
Context {Duration : Type}.           (* TimeStorage::RealMilliseconds *)

(** [std::shared_ptr<Cluster>], possibly null. *)
Definition ClusterPtr : Type := option Cluster.

(** The template argument [PostgreCachePolicy], after [PolicyChecker]
    has accepted it. The default [CacheContainer],
    [std::unordered_map<Key, Value>], is [gmap K V]. *)
Record Policy : Type := mkPolicy {
  kName : string;
  queries : QueryPolicy;
  raw_policy : RawPolicy V;
  (* [*p] for [p] in [res.AsSetOf<RawValueType>(kRowTag)] *)
  row_As : Row → Exc (RawValueType raw_policy);
  (* [std::invoke(PolicyType::kKeyMember, value)] *)
  kKeyMember : V → Exc K;
  (* [kHasCustomUpdated] *)
  GetLastKnownUpdated : option (gmap K V → U);
  (* [UpdatedFieldType{time_point}] *)
  UpdatedFieldType_of : Z → U;
  (* [pg_cache::detail::ClusterHostType<PolicyType>()] *)
  kClusterHostTypeFlags : ClusterHostTypeFlags
}.

(** What the header calls on a cluster. [Portal] stands for
    [Begin(flags, Transaction::RO, cc)], [MakePortal(query, bound)], the
    [Fetch(chunk_size)] loop and [Commit()]. *)
Record Postgres : Type := mkPostgres {
  Execute : ClusterPtr → ClusterHostTypeFlags → CommandControl →
            Query → U → Exc (list Row);
  Portal : ClusterPtr → ClusterHostTypeFlags → CommandControl →
           Query → U → nat → PortalRun Row
}.

(** What [Update] takes from the tracing scope and from the type
    [TimeStorage::RealMilliseconds], both declared outside this header:
    the value of [scope.ElapsedTotal("parse")], the construction of a
    [RealMilliseconds] from a count, the comparison [>] of two of them,
    and their quotient [/], a double. *)
Record ScopeTime : Type := mkScopeTime {
  ElapsedTotal_parse : Duration;
  RealMilliseconds_of : Z → Duration;
  duration_gtb : Duration → Duration → bool;
  duration_ratio : Duration → Duration → PrimFloat.float
}.

Definition kCpuRelaxThreshold (scope : ScopeTime) : Duration :=
  RealMilliseconds_of scope 10.
Definition kCpuRelaxInterval (scope : ScopeTime) : Duration :=
  RealMilliseconds_of scope 2.

(** [elapsed > pg_cache::detail::kCpuRelaxThreshold] *)
Definition over_kCpuRelaxThreshold (scope : ScopeTime) (elapsed : Duration)
  : bool :=
  duration_gtb scope elapsed (kCpuRelaxThreshold scope).

(** [static_cast<std::size_t>(static_cast<double>(changes) /
    (elapsed / pg_cache::detail::kCpuRelaxInterval))] *)
Definition relax_quotient (scope : ScopeTime) (changes : nat)
    (elapsed : Duration) : nat :=
  size_t_of_double
    (PrimFloat.div (double_of_size_t changes)
                   (duration_ratio scope elapsed (kCpuRelaxInterval scope))).

(** Data members of [PostgreCache] and, first, the state of its base
    class [CachingComponentBase]: the published snapshot ([Get]; null
    before the first [Set]), the number of [Set] calls (each installs a
    new object) and whether periodic updates run. *)
Record PostgreCache : Type := mkCache {
  published : option (gmap K V);
  set_count : nat;
  periodic_updates : bool;
  clusters_ : list ClusterPtr;
  correction_ : Z;                   (* system_clock::duration *)
  full_update_timeout_ : Z;          (* milliseconds *)
  incremental_update_timeout_ : Z;   (* milliseconds *)
  chunk_size_ : nat;
  cpu_relax_iterations_ : nat
}.

Definition Set_ (data : gmap K V) (c : PostgreCache) : PostgreCache :=
  mkCache (Some data) (S (set_count c)) (periodic_updates c) (clusters_ c)
          (correction_ c) (full_update_timeout_ c)
          (incremental_update_timeout_ c) (chunk_size_ c)
          (cpu_relax_iterations_ c).

Definition set_cpu_relax_iterations (n : nat) (c : PostgreCache)
  : PostgreCache :=
  mkCache (published c) (set_count c) (periodic_updates c) (clusters_ c)
          (correction_ c) (full_update_timeout_ c)
          (incremental_update_timeout_ c) (chunk_size_ c) n.

(** *** Construction *)

(** The base class as the constructor meets it, a parameter of the
    model since it is declared outside this header: the state that
    [BaseType{config, context, kName}] leaves when it returns,
    [BaseType::AllowedUpdateTypes()], and [StartPeriodicUpdates()], which
    is given the component as the constructor has built it and returns
    it as it leaves it, or throws. *)
Record BaseType : Type := mkBaseType {
  base_published : option (gmap K V);
  base_set_count : nat;
  base_periodic_updates : bool;
  AllowedUpdateTypes_ : AllowedUpdateTypes;
  StartPeriodicUpdates : PostgreCache → Exc PostgreCache
}.

(** The configuration keys the constructor reads ([None]: key absent). *)
Record ComponentConfig : Type := mkConfig {
  Name : string;
  update_correction : option Z;                (* "update-correction" *)
  full_update_op_timeout : option Z;           (* "full-update-op-timeout" *)
  incremental_update_op_timeout : option Z;    (* "incremental-update-op-timeout" *)
  chunk_size : option nat;                     (* "chunk-size" *)
  pgcomponent : option string                  (* "pgcomponent" *)
}.

Record PostgresComponent : Type := mkPostgresComponent {
  GetShardCount : nat;
  GetClusterForShard : nat → Exc ClusterPtr
}.

Record ComponentContext : Type := mkContext {
  FindComponent : string → Exc PostgresComponent
}.

Variable policy : Policy.

(** The loop [clusters_[i] = pg_cluster_comp.GetClusterForShard(i)] over
    the shards [todo] that are left. *)
Fixpoint fill_clusters (pg : PostgresComponent) (todo : list nat)
    (clusters : list ClusterPtr) : Exc (list ClusterPtr) :=
  match todo with
  | [] => Returns clusters
  | i :: later =>
      match GetClusterForShard pg i with
      | Returns cluster => fill_clusters pg later (<[i := cluster]> clusters)
      | Throws e => Throws e
      end
  end.

Definition PostgreCache_ctor (base : BaseType) (config : ComponentConfig)
    (context : ComponentContext) : Exc PostgreCache :=
  let correction :=
    int64_wrap (default 0 (update_correction config)
                * system_clock_ticks_per_milli)%Z in
  let full_update_timeout :=
    default kDefaultFullUpdateTimeout (full_update_op_timeout config) in
  let incremental_update_timeout :=
    default kDefaultIncrementalUpdateTimeout
            (incremental_update_op_timeout config) in
  let chunk := default 0 (chunk_size config) in
  if bool_decide (AllowedUpdateTypes_ base = kFullAndIncremental)
     && negb (kIncrementalUpdates (queries policy))
  then Throws (logic_error
    ("Incremental update support is requested in config but no update field "
     +:+ "name is specified in traits of '" +:+ Name config +:+ "' cache"))
  else if (correction <? 0)%Z
  then Throws (logic_error
    ("Refusing to set forward (negative) update correction requested in "
     +:+ "config for '" +:+ Name config +:+ "' cache"))
  else
    let pg_alias := default EmptyString (pgcomponent config) in
    if String.eqb pg_alias EmptyString
    then Throws (InvalidConfig "No `pgcomponent` entry in configuration")
    else
      match FindComponent context pg_alias with
      | Throws e => Throws e
      | Returns pg_cluster_comp =>
          let shard_count := GetShardCount pg_cluster_comp in
          match fill_clusters pg_cluster_comp (seq 0 shard_count)
                              (replicate shard_count None) with
          | Throws e => Throws e
          | Returns clusters =>
              StartPeriodicUpdates base
                (mkCache (base_published base) (base_set_count base)
                         (base_periodic_updates base) clusters
                         correction full_update_timeout
                         incremental_update_timeout chunk 0)
          end
      end.

(** *** [CacheResults] *)

(** The body of the [try] block up to [insert_or_assign]: the raw
    parse of the row, [ExtractValue], the key extraction. *)
Definition parse_row (p : Row) : Exc (K * V) :=
  raw ← row_As policy p;
  value ← ExtractValue (raw_policy policy) raw;
  key ← kKeyMember policy value;
  mret (key, value).

(** [relax.Relax()] only yields to the scheduler and is left out, as is
    the logging of the [catch] block. The handler takes what derives
    from [std::exception]; anything else leaves [CacheResults], and is
    returned with the container and the statistics as the rows before
    it left them. *)
Fixpoint CacheResults (res : list Row) (data_cache : gmap K V)
    (stats_scope : UpdateStatisticsScope)
  : gmap K V * UpdateStatisticsScope * option Exception :=
  match res with
  | [] => (data_cache, stats_scope, None)
  | p :: values =>
      match parse_row p with
      | Returns (key, value) =>
          CacheResults values (<[key := value]> data_cache) stats_scope
      | Throws e =>
          if derives_from_std_exception e then
            CacheResults values data_cache
                         (IncreaseDocumentsParseFailures 1 stats_scope)
          else (data_cache, stats_scope, Some e)
      end
  end.

(** *** [GetDataSnapshot] and [GetLastUpdated] *)

Definition GetDataSnapshot (c : PostgreCache) (type : UpdateType)
  : gmap K V :=
  if bool_decide (type = kIncremental) then
    match published c with
    | Some data => data
    | None => ∅
    end
  else ∅.

Definition GetLastUpdated (c : PostgreCache) (last_update : Z)
    (cache : gmap K V) : U :=
  match GetLastKnownUpdated policy with
  | Some custom => custom cache
  | None => UpdatedFieldType_of policy (last_update - correction_ c)%Z
  end.

(** *** [Update] *)

(** The locals of [Update] that the loop over the clusters changes,
    with the statistics scope it holds by reference. [changes] is a
    [size_t]; a run cannot fetch [2^64] rows, so it is a [nat]. *)
Record Locals : Type := mkLocals {
  data_cache : gmap K V;
  stats_scope : UpdateStatisticsScope;
  changes : nat
}.

(** One statement sent to a cluster, as [Execute] or through a portal,
    with the rows that came back before the loop body was left. *)
Record DbCall : Type := mkDbCall {
  call_cluster : ClusterPtr;
  call_chunked : bool;
  call_flags : ClusterHostTypeFlags;
  call_control : CommandControl;
  call_query : Query;
  call_bound : U;
  call_rows : list Row
}.

Variable pg : Postgres.

(** [stats_scope.IncreaseDocumentsReadCount(res.Size())],
    [CacheResults(res, data_cache, stats_scope, scope)],
    [changes += res.Size()]: the same three statements in both branches
    of the loop body. The third is not reached when an exception
    leaves [CacheResults]. *)
Definition consume (res : list Row) (loc : Locals)
  : Locals * option Exception :=
  let stats1 := IncreaseDocumentsReadCount (length res) (stats_scope loc) in
  let cached := CacheResults res (data_cache loc) stats1 in
  match cached.2 with
  | Some e => (mkLocals cached.1.1 cached.1.2 (changes loc), Some e)
  | None =>
      (mkLocals cached.1.1 cached.1.2 (changes loc + length res), None)
  end.

(** [while (portal) { ... }  trx.Commit();] ; [got] collects the rows
    fetched so far. *)
Fixpoint fetch_all (portal : PortalRun Row) (loc : Locals) (got : list Row)
  : Locals * list Row * option Exception :=
  match portal with
  | Fetch res next =>
      let consumed := consume res loc in
      match consumed.2 with
      | Some e => (consumed.1, got ++ res, Some e)
      | None => fetch_all next consumed.1 (got ++ res)
      end
  | Commit => (loc, got, None)
  | PortalThrows e => (loc, got, Some e)
  end.

Section UpdateLoop.
Variable c : PostgreCache.
Variable query : Query.
Variable timeout : Z.
Variable last_update : Z.

Definition command_control : CommandControl :=
  mkCommandControl timeout kStatementTimeoutOff.

Definition new_call (cluster : ClusterPtr) (bound : U) (rows : list Row)
  : DbCall :=
  mkDbCall cluster (0 <? chunk_size_ c)%nat (kClusterHostTypeFlags policy)
           command_control query bound rows.

(** [for (auto cluster : clusters_) { ... }] *)
Fixpoint iterate_clusters (clusters : list ClusterPtr) (loc : Locals)
  : Locals * list DbCall * option Exception :=
  match clusters with
  | [] => (loc, [], None)
  | cluster :: rest =>
      let bound := GetLastUpdated c last_update (data_cache loc) in
      if (0 <? chunk_size_ c)%nat then
        let fetched :=
          fetch_all (Portal pg cluster (kClusterHostTypeFlags policy)
                            command_control query bound (chunk_size_ c))
                    loc [] in
        let call := new_call cluster bound fetched.1.2 in
        match fetched.2 with
        | Some e => (fetched.1.1, [call], Some e)
        | None =>
            let later := iterate_clusters rest fetched.1.1 in
            (later.1.1, call :: later.1.2, later.2)
        end
      else
        match Execute pg cluster (kClusterHostTypeFlags policy)
                      command_control query bound with
        | Throws e => (loc, [new_call cluster bound []], Some e)
        | Returns res =>
            let consumed := consume res loc in
            let call := new_call cluster bound res in
            match consumed.2 with
            | Some e => (consumed.1, [call], Some e)
            | None =>
                let later := iterate_clusters rest consumed.1 in
                (later.1.1, call :: later.1.2, later.2)
            end
        end
  end.
End UpdateLoop.

(** [if constexpr (!kIncrementalUpdates) type = kFull;] *)
Definition effective_type (type : UpdateType) : UpdateType :=
  if kIncrementalUpdates (queries policy) then type else kFull.

Definition update_query (type : UpdateType) : Query :=
  if bool_decide (type = kFull) then GetAllQuery (queries policy)
  else GetDeltaQuery (queries policy).

Definition update_timeout (c : PostgreCache) (type : UpdateType) : Z :=
  if bool_decide (type = kFull) then full_update_timeout_ c
  else incremental_update_timeout_ c.

(** The block [if (changes > 0) { ... cpu_relax_iterations_ = ... }]. *)
Definition adapt_cpu_relax (scope : ScopeTime) (changes : nat)
    (c : PostgreCache) : PostgreCache :=
  if (0 <? changes)%nat then
    let elapsed := ElapsedTotal_parse scope in
    if over_kCpuRelaxThreshold scope elapsed then
      set_cpu_relax_iterations (relax_quotient scope changes elapsed) c
    else c
  else c.

(** What a call of [Update] leaves behind: the component, the locals
    (with the statistics scope) when it returned or threw, the
    statements it sent, and the exception that left it, if any. *)
Record UpdateOutcome : Type := mkOutcome {
  cache_after : PostgreCache;
  locals_after : Locals;
  db_calls : list DbCall;
  thrown : option Exception
}.

Definition Update (c : PostgreCache) (type : UpdateType)
    (last_update now : Z) (stats : UpdateStatisticsScope)
    (scope : ScopeTime) : UpdateOutcome :=
  let type := effective_type type in
  let query := update_query type in
  let timeout := update_timeout c type in
  let data := GetDataSnapshot c type in
  let looped :=
    iterate_clusters c query timeout last_update (clusters_ c)
                     (mkLocals data stats 0) in
  let loc := looped.1.1 in
  match looped.2 with
  | Some e => mkOutcome c loc looped.1.2 (Some e)
  | None =>
      let c1 := adapt_cpu_relax scope (changes loc) c in
      if (0 <? changes loc)%nat || bool_decide (type = kFull) then
        mkOutcome
          (Set_ (data_cache loc) c1)
          (mkLocals (data_cache loc)
                    (stats_Finish (size (data_cache loc)) (stats_scope loc))
                    (changes loc))
          looped.1.2 None
      else
        mkOutcome
          c1
          (mkLocals (data_cache loc)
                    (stats_FinishNoChanges (stats_scope loc))
                    (changes loc))
          looped.1.2 None
  end.

(** *** Notions used to state what an update does *)

(** The rows that the [try] block decodes, with their keys. *)
Definition decoded (rows : list Row) : list (K * V) :=
  omap (λ p, match parse_row p with
             | Returns kv => Some kv
             | Throws _ => None
             end) rows.

(** How many rows make the [try] block throw. *)
Definition parse_failures (rows : list Row) : nat :=
  length (List.filter (λ p, match parse_row p with
                            | Returns _ => false
                            | Throws _ => true
                            end) rows).

(** The first exception among those the rows make the [try] block throw
    that the handler does not take. *)
Fixpoint escaped (rows : list Row) : option Exception :=
  match rows with
  | [] => None
  | p :: later =>
      match parse_row p with
      | Returns _ => escaped later
      | Throws e =>
          if derives_from_std_exception e then escaped later else Some e
      end
  end.

(** The rows before the one that throws it: those that the loop of
    [CacheResults] gets through. *)
Fixpoint handled (rows : list Row) : list Row :=
  match rows with
  | [] => []
  | p :: later =>
      match parse_row p with
      | Returns _ => p :: handled later
      | Throws e =>
          if derives_from_std_exception e then p :: handled later else []
      end
  end.

(** All rows that the statements of a run brought back, in order. *)
Definition fetched_rows (calls : list DbCall) : list Row :=
  concat (call_rows <$> calls).

(** What a cluster answers to the statement of one loop iteration: the
    rows it hands over and the exception it ends with, if any. *)
Definition cluster_answer (c : PostgreCache) (query : Query) (timeout : Z)
    (cluster : ClusterPtr) (bound : U) : list Row * option Exception :=
  if (0 <? chunk_size_ c)%nat then
    let portal := Portal pg cluster (kClusterHostTypeFlags policy)
                         (command_control timeout) query bound
                         (chunk_size_ c) in
    (portal_rows portal, portal_thrown portal)
  else
    match Execute pg cluster (kClusterHostTypeFlags policy)
                  (command_control timeout) query bound with
    | Returns res => (res, None)
    | Throws e => ([], Some e)
    end.

(** Upsert by key, as the specification words it: a row whose key
    exists replaces the prior value, a new key is inserted, nothing is
    removed; of two rows with one key the later one stays. *)
Definition upsert (S : gmap K V) (R : list (K * V)) : gmap K V :=
  list_to_map (reverse R) ∪ S.

Definition keys (R : list (K * V)) : gset K := list_to_set R.*1.

(** The result sets that the clusters hand over when they are asked one
    after the other, each with the bound that the container has reached
    by the specification's upsert of the result sets before it; [None]
    when one of them ends with an exception. This is the database's
    side of an update, written without [Update]. *)
Fixpoint result_sets (c : PostgreCache) (query : Query) (timeout : Z)
    (last_update : Z) (clusters : list ClusterPtr) (container : gmap K V)
  : option (list (list Row)) :=
  match clusters with
  | [] => Some []
  | cluster :: rest =>
      let answer :=
        cluster_answer c query timeout cluster
                       (GetLastUpdated c last_update container) in
      match answer.2 with
      | Some _ => None
      | None =>
          match result_sets c query timeout last_update rest
                            (upsert container (decoded answer.1)) with
          | Some later => Some (answer.1 :: later)
          | None => None
          end
      end
  end.

(** The locals after the loop body has taken [rows] without leaving by
    an exception. *)
Definition absorb (rows : list Row) (loc : Locals) : Locals :=
  mkLocals (upsert (data_cache loc) (decoded rows))
           (mkStats (documents_read_count (stats_scope loc) + length rows)
                    (documents_parse_failures (stats_scope loc)
                     + parse_failures rows)
                    (finished (stats_scope loc)))
           (changes loc + length rows).

(** The locals [after] that the loop body leaves when it has fetched
    [rows] starting from [before], whether it was left by an exception
    ([exn]) or not. *)
Definition absorbed (rows : list Row) (exn : option Exception)
    (before after : Locals) : Prop :=
  data_cache after = upsert (data_cache before) (decoded (handled rows))
  ∧ stats_scope after
    = mkStats (documents_read_count (stats_scope before) + length rows)
              (documents_parse_failures (stats_scope before)
               + parse_failures (handled rows))
              (finished (stats_scope before))
  ∧ (escaped rows = None → changes after = changes before + length rows)
  ∧ (exn = None → escaped rows = None).

End Model.

Arguments Policy K {_ _} V Row U.
Arguments Postgres : clear implicits.
Arguments ScopeTime : clear implicits.
Arguments PostgreCache K {_ _} V Cluster.
Arguments BaseType K {_ _} V Cluster.
Arguments PostgresComponent : clear implicits.
Arguments ComponentContext : clear implicits.
Arguments Locals K {_ _} V.
Arguments DbCall : clear implicits.
Arguments UpdateOutcome K {_ _} V Row U Cluster.

(** ** [PolicyChecker]: the static assertions on a policy

    What the detection idiom of [pg_cache::detail] finds in a policy type
    [T]: for each member the traits look for, whether [T] has it, and its
    value where an assertion reads it. *)

(** The type that [T::UpdatedFieldType] names. *)
Inductive DeclaredFieldType : Type :=
| TimePointTz
| TimePoint
| OtherFieldType.

Record PolicyTraits : Type := mkTraits {
  t_kName : option string;
  t_ValueType : bool;
  (* [std::invoke(T::kKeyMember, value)] is well-formed for a value of
     the value type *)
  t_kKeyMember : bool;
  t_kQuery : option string;
  t_GetQuery : option string;
  (* [None]: no member; [Some None]: [nullptr] *)
  t_kUpdatedField : option (option string);
  t_UpdatedFieldType : option DeclaredFieldType;
  (* [T::GetLastKnownUpdated(container)] is well-formed *)
  t_GetLastKnownUpdated : bool;
  t_kClusterHostType : option ClusterHostTypeFlags
}.

Definition kHasName (t : PolicyTraits) : bool :=
  match t_kName t with
  | Some name => negb (String.eqb name EmptyString)
  | None => false
  end.

Definition kHasValueType (t : PolicyTraits) : bool := t_ValueType t.

(** [KeyMemberTypeImpl] mentions [ValueType<T>]: without a value type it
    is not detected. *)
Definition kHasKeyMember (t : PolicyTraits) : bool :=
  t_ValueType t && t_kKeyMember t.

Definition kHasQuery (t : PolicyTraits) : bool := bool_decide (is_Some (t_kQuery t)).
Definition kHasGetQuery (t : PolicyTraits) : bool :=
  bool_decide (is_Some (t_GetQuery t)).
Definition kHasUpdatedField (t : PolicyTraits) : bool :=
  bool_decide (is_Some (t_kUpdatedField t)).

Definition kWantIncrementalUpdates (t : PolicyTraits) : bool :=
  match t_kUpdatedField t with
  | Some (Some u) => negb (String.eqb u EmptyString)
  | _ => false
  end.

Definition kHasCustomUpdated (t : PolicyTraits) : bool :=
  t_GetLastKnownUpdated t.

Definition kHasUpdatedFieldType (t : PolicyTraits) : bool :=
  bool_decide (is_Some (t_UpdatedFieldType t)).

(** [meta::DetectedOr<storages::postgres::TimePointTz, UpdatedFieldTypeImpl, T>] *)
Definition UpdatedFieldType (t : PolicyTraits) : DeclaredFieldType :=
  default TimePointTz (t_UpdatedFieldType t).

Global Instance DeclaredFieldType_eq_dec : EqDecision DeclaredFieldType.
Proof. solve_decision. Defined.

(** The static assertions are modelled by the messages of those that
    fail; a policy is accepted when there is none. *)
Definition static_assert (condition : bool) (message : string) : list string :=
  if condition then [] else [message].

Definition CheckUpdatedFieldType (t : PolicyTraits) : list string :=
  match t_UpdatedFieldType t with
  | Some type =>
      static_assert
        (bool_decide (type = TimePointTz) || bool_decide (type = TimePoint)
         || kHasCustomUpdated t)
        "Invalid UpdatedFieldType, must be either TimePointTz or TimePoint"
  | None =>
      static_assert
        (negb (kWantIncrementalUpdates t))
        ("UpdatedFieldType must be explicitly specified when using "
         +:+ "incremental updates")
  end.

(** [pg_cache::detail::ClusterHostType<T>()]; [kSlave] and, below,
    [kClusterHostRolesMask] are constants of the PostgreSQL driver. *)
Definition ClusterHostType (kSlave : ClusterHostTypeFlags) (t : PolicyTraits)
  : ClusterHostTypeFlags :=
  default kSlave (t_kClusterHostType t).

Definition PolicyChecker (kSlave kClusterHostRolesMask : ClusterHostTypeFlags)
    (t : PolicyTraits) : list string :=
  static_assert (kHasName t)
    "The PosgreSQL cache policy must contain a static member `kName`"
  ++ static_assert (kHasValueType t)
    "The PosgreSQL cache policy must define a type alias `ValueType`"
  ++ static_assert (kHasKeyMember t)
    ("The PostgreSQL cache policy must contain a static member `kKeyMember` "
     +:+ "with a pointer to a data or a function member with the object's key")
  ++ static_assert (kHasQuery t || kHasGetQuery t)
    ("The PosgreSQL cache policy must contain a static data member "
     +:+ "`kQuery` with a select statement or a static member function "
     +:+ "`GetQuery` returning the query")
  ++ static_assert (negb (kHasQuery t && kHasGetQuery t))
    ("The PosgreSQL cache policy must define `kQuery` or "
     +:+ "`GetQuery`, not both")
  ++ static_assert (kHasUpdatedField t)
    ("The PosgreSQL cache policy must contain a static member "
     +:+ "`kUpdatedField`. If you don't want to use incremental updates, "
     +:+ "please set its value to `nullptr`")
  ++ CheckUpdatedFieldType t
  ++ static_assert
       (negb (N.eqb (N.land (ClusterHostType kSlave t) kClusterHostRolesMask) 0))
       ("Cluster host role must be specified for caching component, "
        +:+ "please be more specific").

(** [PolicyChecker::GetQuery]; ill-formed ([None]) when the policy has
    neither member. *)
Definition PolicyChecker_GetQuery (t : PolicyTraits) : option string :=
  match t_GetQuery t with
  | Some query => Some query
  | None => t_kQuery t
  end.
(** ** A sample cache

    Shards of a table [t(id, name, updated)], cached by [id]. A row
    whose [id] is null cannot be converted. *)
Module Example.

Definition Key : Type := nat.
Definition Value : Type := (nat * string)%type.
Definition Raw : Type := (option nat * string)%type.
Definition Row : Type := (option nat * string * Z)%type.

Definition Convert (raw : Raw) : Exc Value :=
  match raw.1 with
  | Some id => Returns (id, raw.2)
  | None => Throws (runtime_error "id is null")
  end.

Definition make_policy (where_ updated : option string)
    (custom : option (gmap Key Value → Z)) : Policy Key Value Row Z :=
  mkPolicy "sample-cache"
           (mkQueryPolicy (mkQuery "SELECT id, name, updated FROM t"
                                   (Some "sample"))
                          where_ updated)
           (HasRawValueType Raw Convert)
           (λ row : Row, Returns row.1)
           (λ value : Value, Returns value.1)
           custom
           (λ t, t)
           4%N.

Definition incremental_policy : Policy Key Value Row Z :=
  make_policy None (Some "updated") None.

Definition full_only_policy : Policy Key Value Row Z :=
  make_policy (Some "name <> ''") None None.

(** A policy whose high-water mark is the largest cached id. *)
Definition revision_policy : Policy Key Value Row Z :=
  make_policy None (Some "id")
              (Some (λ cache : gmap Key Value,
                       map_fold (λ k _ m, Z.max (Z.of_nat k) m) 0%Z cache)).

(** A policy whose conversion throws an object that is no
    [std::exception] for a null [id], and whose key extraction throws a
    [std::runtime_error] for the id 0. *)
Definition throwing_Convert (raw : Raw) : Exc Value :=
  match raw.1 with
  | Some id => Returns (id, raw.2)
  | None => Throws (not_std_exception "id is null")
  end.

Definition throwing_policy : Policy Key Value Row Z :=
  mkPolicy "sample-cache"
           (mkQueryPolicy (mkQuery "SELECT id, name, updated FROM t"
                                   (Some "sample"))
                          None (Some "updated"))
           (HasRawValueType Raw throwing_Convert)
           (λ row : Row, Returns row.1)
           (λ value : Value,
              if (value.1 =? 0)%nat then Throws (runtime_error "id is zero")
              else Returns value.1)
           None
           (λ t, t)
           4%N.

Definition shard0 : list Row :=
  [(Some 1, "a", 5%Z); (None, "x", 6%Z); (Some 3, "c", 20%Z)].
Definition shard1 : list Row := [(Some 2, "b", 7%Z)].
(** A shard none of whose rows can be converted, and one of 20 rows. *)
Definition shard3 : list Row := [(None, "y", 30%Z); (None, "z", 31%Z)].
Definition shard4 : list Row :=
  (λ i, (Some (10 + i), "n", 40%Z)) <$> seq 0 20.

Definition has_placeholder (statement : string) : bool :=
  String.eqb (substring (String.length statement - 2) 2 statement) "$1".

(** The rows a statement selects: all of them, or those at or above the
    bound when the statement ends in [>= $1]. *)
Definition select (table : list Row) (query : Query) (bound : Z)
  : list Row :=
  if has_placeholder (Statement query)
  then List.filter (λ row : Row, (bound <=? row.2)%Z) table
  else table.

Fixpoint portal_of (fuel chunk : nat) (rows : list Row) : PortalRun Row :=
  match fuel with
  | 0 => Commit
  | Datatypes.S fuel' =>
      let res := take chunk rows in
      if (length res <? chunk)%nat then Fetch res Commit
      else Fetch res (portal_of fuel' chunk (drop chunk rows))
  end.

Definition table_of (cluster : option nat) : Exc (list Row) :=
  match cluster with
  | Some 0 => Returns shard0
  | Some 1 => Returns shard1
  | Some 3 => Returns shard3
  | Some 4 => Returns shard4
  | _ => Throws (runtime_error "connection refused")
  end.

Definition db : Postgres Row Z nat :=
  mkPostgres
    (λ cluster _ _ query bound,
       table ← table_of cluster; mret (select table query bound))
    (λ cluster _ _ query bound chunk,
       match table_of cluster with
       | Returns table =>
           let rows := select table query bound in
           portal_of (Datatypes.S (length rows)) chunk rows
       | Throws e => PortalThrows e
       end).

Definition context (shards : nat) : ComponentContext nat :=
  mkContext (λ _, Returns (mkPostgresComponent shards
                                               (λ i, Returns (Some i)))).

Definition config (chunk : nat) : ComponentConfig :=
  mkConfig "sample-cache" None None None (Some chunk) (Some "pg").

(** A component with the given cluster handles that has published
    [snapshot]. *)
Definition cache_on (clusters : list (option nat)) (chunk : nat)
    (snapshot : option (gmap Key Value)) : PostgreCache Key Value nat :=
  mkCache snapshot 0 true clusters 0
          kDefaultFullUpdateTimeout kDefaultIncrementalUpdateTimeout
          chunk 0.

(** A component over [shards] shards that has published [snapshot]. *)
Definition cache_with (shards chunk : nat) (snapshot : option (gmap Key Value))
  : PostgreCache Key Value nat :=
  mkCache snapshot 0 true (Some <$> seq 0 shards) 0
          kDefaultFullUpdateTimeout kDefaultIncrementalUpdateTimeout
          chunk 0.

(** A base class that has published nothing when its constructor
    returns, and whose [StartPeriodicUpdates] only starts the task. *)
Definition sample_base (allowed : AllowedUpdateTypes)
  : BaseType Key Value nat :=
  mkBaseType None 0 false allowed
    (λ c, Returns (mkCache (published c) (set_count c) true (clusters_ c)
                           (correction_ c) (full_update_timeout_ c)
                           (incremental_update_timeout_ c) (chunk_size_ c)
                           (cpu_relax_iterations_ c))).


Definition no_stats : UpdateStatisticsScope := mkStats 0 0 NotFinished.

(** [RealMilliseconds] as a double count of milliseconds, and a scope
    whose parse phase took [elapsed]. *)
Definition scope_elapsed (elapsed : PrimFloat.float)
  : ScopeTime PrimFloat.float :=
  mkScopeTime elapsed
              (λ count, FloatOps.SF2Prim
                 (SpecFloat.binary_normalize FloatOps.prec FloatOps.emax
                                             count 0 false))
              (λ a b, PrimFloat.ltb b a)
              PrimFloat.div.

(** A parse phase of [ms] whole milliseconds. *)
Definition scope_of (ms : nat) : ScopeTime PrimFloat.float :=
  scope_elapsed (double_of_size_t ms).

(** A parse phase of twice the double nearest to 20/3 milliseconds,
    13.333333333333334 ms. *)
Definition third_of_forty : PrimFloat.float :=
  PrimFloat.mul (double_of_size_t 2)
                (PrimFloat.div (double_of_size_t 20) (double_of_size_t 3)).

(** A snapshot published earlier. *)
Definition prior : gmap Key Value := {[ 1 := (1, "old"); 9 := (9, "z") ]}.

(** The statement that a full update under [revision_policy] sends to the
    second shard: shard 0 has brought keys 1 and 3 by then, so the bound
    is 3. *)
Definition second_call : DbCall Row Z nat :=
  mkDbCall (Some 1) false 4%N (mkCommandControl 60000 0)
           (mkQuery "SELECT id, name, updated FROM t" (Some "sample"))
           3%Z [(Some 2, "b", 7%Z)].

(** What the detection idiom finds in the policy of the sample cache,
    and sample values for the two constants of the driver. *)
Definition sample_traits : PolicyTraits :=
  mkTraits (Some "sample-cache") true true
           (Some "SELECT id, name, updated FROM t") None
           (Some (Some "updated")) (Some TimePointTz) false None.
Definition sample_kSlave : ClusterHostTypeFlags := 4%N.
Definition sample_kClusterHostRolesMask : ClusterHostTypeFlags := 7%N.

End Example.

(** * Properties *)

(** ** Query composition *)

Lemma append_empty_r (s : string) : s +:+ EmptyString = s.
Proof.
  induction s as [|a s IH]; [done |].
  change (String a (s +:+ EmptyString) = String a s). by rewrite IH.
Qed.

Lemma kIncrementalUpdates_false (p : QueryPolicy) :
  kIncrementalUpdates p = false ↔
  kUpdatedField p = None ∨ kUpdatedField p = Some EmptyString.
Proof.
  unfold kIncrementalUpdates. destruct (kUpdatedField p) as [u|].
  - destruct (String.eqb_spec u EmptyString) as [->|Hne]; simpl.
    + split; [by right | done].
    + split; [done | intros [?|[=]]; congruence].
  - split; [by left | done].
Qed.

Lemma GetDeltaQuery_disabled (p : QueryPolicy) :
  kIncrementalUpdates p = false → GetDeltaQuery p = GetAllQuery p.
Proof.
  unfold kIncrementalUpdates, GetDeltaQuery.
  destruct (kUpdatedField p) as [u|]; [|done].
  by intros ->.
Qed.

(** C4. The delta statement is the base statement followed by
    [ where (W) and U >= $1] when the policy has a [kWhere] fragment [W],
    and by [ where U >= $1] when it has none ([U] the non-empty
    [kUpdatedField]); with [kUpdatedField] null or empty the delta query is
    the full query, whose statement is the base statement, followed by
    [ where W] when there is a fragment. The query name is kept. *)
Theorem delta_query_shape (Q W U : string) (name : option string)
    (w : option string) :
  U ≠ EmptyString →
  GetDeltaQuery (mkQueryPolicy (mkQuery Q name) (Some W) (Some U))
    = mkQuery (Q +:+ " where (" +:+ W +:+ ") and " +:+ U +:+ " >= $1") name
  ∧ GetDeltaQuery (mkQueryPolicy (mkQuery Q name) None (Some U))
    = mkQuery (Q +:+ " where " +:+ U +:+ " >= $1") name
  ∧ GetDeltaQuery (mkQueryPolicy (mkQuery Q name) w None)
    = GetAllQuery (mkQueryPolicy (mkQuery Q name) w None)
  ∧ GetDeltaQuery (mkQueryPolicy (mkQuery Q name) w (Some EmptyString))
    = GetAllQuery (mkQueryPolicy (mkQuery Q name) w (Some EmptyString))
  ∧ (∀ u, GetAllQuery (mkQueryPolicy (mkQuery Q name) (Some W) u)
          = mkQuery (Q +:+ " where " +:+ W) name)
  ∧ (∀ u, GetAllQuery (mkQueryPolicy (mkQuery Q name) None u)
          = mkQuery Q name).
Proof.
  intros HU.
  assert (String.eqb U EmptyString = false) as HUb by by apply String.eqb_neq.
  repeat split.
  - unfold GetDeltaQuery; simpl. by rewrite HUb.
  - unfold GetDeltaQuery; simpl. by rewrite HUb.
  - intros u. unfold GetAllQuery; simpl. by rewrite append_empty_r.
Qed.

Lemma delta_query_shape_witness :
  GetDeltaQuery (mkQueryPolicy (mkQuery "SELECT id FROM t" (Some "q"))
                               (Some "id > 0") (Some "updated"))
  = mkQuery "SELECT id FROM t where (id > 0) and updated >= $1" (Some "q").
Proof.
  exact (proj1 (delta_query_shape "SELECT id FROM t" "id > 0" "updated"
                                  (Some "q") None ltac:(discriminate))).
Defined.

Section Proofs.
Context {K : Type} `{Countable K} {V Row U Cluster Duration : Type}.
Variable policy : Policy K V Row U.
Variable pg : Postgres Row U Cluster.

(** ** Upsert *)

Lemma upsert_nil (S : gmap K V) : upsert S [] = S.
Proof. unfold upsert. simpl. by rewrite (left_id_L ∅ (∪)). Qed.

Lemma upsert_cons (S : gmap K V) (k : K) (v : V) (R : list (K * V)) :
  upsert S ((k, v) :: R) = upsert (<[k := v]> S) R.
Proof.
  unfold upsert. rewrite reverse_cons, list_to_map_app. simpl.
  rewrite <- (assoc_L (∪)). f_equal.
  by rewrite <- insert_union_l, (left_id_L ∅ (∪)).
Qed.

Lemma upsert_app (S : gmap K V) (R1 R2 : list (K * V)) :
  upsert S (R1 ++ R2) = upsert (upsert S R1) R2.
Proof.
  revert S. induction R1 as [|[k v] R1 IH]; intros S; simpl.
  - by rewrite upsert_nil.
  - by rewrite !upsert_cons, IH.
Qed.

Lemma upsert_dom (S : gmap K V) (R : list (K * V)) :
  dom (upsert S R) = dom S ∪ keys R.
Proof.
  unfold upsert, keys. rewrite dom_union_L, dom_list_to_map_L.
  rewrite fmap_reverse. apply set_eq. intros k.
  rewrite !elem_of_union, !elem_of_list_to_set, elem_of_reverse. tauto.
Qed.

Lemma upsert_lookup_other (S : gmap K V) (R : list (K * V)) (k : K) :
  k ∉ R.*1 → upsert S R !! k = S !! k.
Proof.
  intros Hk. unfold upsert. apply lookup_union_r.
  apply not_elem_of_list_to_map_1. by rewrite fmap_reverse, elem_of_reverse.
Qed.

Lemma upsert_lookup_last (S : gmap K V) (R1 R2 : list (K * V)) (k : K) (v : V) :
  k ∉ R2.*1 → upsert S (R1 ++ (k, v) :: R2) !! k = Some v.
Proof.
  intros Hk. rewrite upsert_app, upsert_cons, upsert_lookup_other by done.
  apply lookup_insert_eq.
Qed.

(** ** Rows and the exceptions of the [try] block *)

Lemma decoded_app (r1 r2 : list Row) :
  decoded policy (r1 ++ r2) = decoded policy r1 ++ decoded policy r2.
Proof. apply omap_app. Qed.

Lemma parse_failures_app (r1 r2 : list Row) :
  parse_failures policy (r1 ++ r2)
  = parse_failures policy r1 + parse_failures policy r2.
Proof. unfold parse_failures. by rewrite List.filter_app, length_app. Qed.

Lemma decoded_cons (p : Row) (rows : list Row) :
  decoded policy (p :: rows)
  = match parse_row policy p with
    | Returns kv => kv :: decoded policy rows
    | Throws _ => decoded policy rows
    end.
Proof. unfold decoded. simpl. by destruct (parse_row policy p). Qed.

Lemma parse_failures_cons (p : Row) (rows : list Row) :
  parse_failures policy (p :: rows)
  = match parse_row policy p with
    | Returns _ => parse_failures policy rows
    | Throws _ => S (parse_failures policy rows)
    end.
Proof. unfold parse_failures. simpl. by destruct (parse_row policy p). Qed.

Lemma escaped_app (r1 r2 : list Row) :
  escaped policy (r1 ++ r2)
  = match escaped policy r1 with
    | Some e => Some e
    | None => escaped policy r2
    end.
Proof.
  induction r1 as [|p r1 IH]; simpl; [done |].
  destruct (parse_row policy p) as [kv|e]; [done |].
  by destruct (derives_from_std_exception e).
Qed.

Lemma escaped_app_None (r1 r2 : list Row) :
  escaped policy (r1 ++ r2) = None
  ↔ escaped policy r1 = None ∧ escaped policy r2 = None.
Proof.
  rewrite escaped_app. destruct (escaped policy r1); [|tauto].
  split; [done | by intros [? _]].
Qed.

Lemma handled_app (r1 r2 : list Row) :
  handled policy (r1 ++ r2)
  = match escaped policy r1 with
    | Some _ => handled policy r1
    | None => r1 ++ handled policy r2
    end.
Proof.
  induction r1 as [|p r1 IH]; simpl; [done |].
  destruct (parse_row policy p) as [kv|e].
  - rewrite IH. by destruct (escaped policy r1).
  - destruct (derives_from_std_exception e); [|done].
    rewrite IH. by destruct (escaped policy r1).
Qed.

Lemma handled_caught (rows : list Row) :
  escaped policy rows = None → handled policy rows = rows.
Proof.
  induction rows as [|p rows IH]; simpl; [done |].
  destruct (parse_row policy p) as [kv|e].
  - intros Hrows. by rewrite IH.
  - destruct (derives_from_std_exception e); [|done].
    intros Hrows. by rewrite IH.
Qed.

(** What escapes is not derived from [std::exception], and is thrown by
    a row. *)
Lemma escaped_not_std (rows : list Row) (e : Exception) :
  escaped policy rows = Some e →
  derives_from_std_exception e = false
  ∧ ∃ p, p ∈ rows ∧ parse_row policy p = Throws e.
Proof.
  induction rows as [|p rows IH]; simpl; [done |].
  destruct (parse_row policy p) as [kv|e'] eqn:Hp.
  - intros Hrows. destruct (IH Hrows) as (? & q & ? & ?).
    split; [done |]. exists q. split; [by right | done].
  - destruct (derives_from_std_exception e') eqn:He'.
    + intros Hrows. destruct (IH Hrows) as (? & q & ? & ?).
      split; [done |]. exists q. split; [by right | done].
    + intros [= <-]. split; [done |]. exists p. split; [by left | done].
Qed.

(** Rows whose exceptions all derive from [std::exception] let none
    escape. *)
Lemma escaped_None (rows : list Row) :
  escaped policy rows = None
  ↔ Forall (λ p, ∀ e, parse_row policy p = Throws e →
                      derives_from_std_exception e = true) rows.
Proof.
  induction rows as [|p rows IH]; simpl.
  - split; [by constructor | done].
  - rewrite Forall_cons, <- IH.
    destruct (parse_row policy p) as [kv|e]; [split; [done | tauto] |].
    destruct (derives_from_std_exception e) eqn:He.
    + split; [|tauto]. intros Hrows. split; [|done]. by intros ? [= <-].
    + split; [done |]. intros [Hp _]. specialize (Hp e eq_refl). congruence.
Qed.

(** ** [CacheResults] *)

Lemma CacheResults_spec (res : list Row) (data : gmap K V)
    (stats : UpdateStatisticsScope) :
  CacheResults policy res data stats
  = (upsert data (decoded policy (handled policy res)),
     IncreaseDocumentsParseFailures
       (parse_failures policy (handled policy res)) stats,
     escaped policy res).
Proof.
  assert (∀ stats0, IncreaseDocumentsParseFailures 0 stats0 = stats0) as Hzero.
  { intros [read failed fin]. unfold IncreaseDocumentsParseFailures. simpl.
    by rewrite Nat.add_0_r. }
  revert data stats. induction res as [|p res IH]; intros data stats.
  - simpl. by rewrite upsert_nil, Hzero.
  - simpl. destruct (parse_row policy p) as [[key value]|e] eqn:Hp.
    + rewrite IH, decoded_cons, parse_failures_cons, Hp.
      by rewrite upsert_cons.
    + destruct (derives_from_std_exception e).
      * rewrite IH, decoded_cons, parse_failures_cons, Hp.
        unfold IncreaseDocumentsParseFailures. simpl.
        do 2 f_equal. f_equal. lia.
      * by rewrite upsert_nil, Hzero.
Qed.

Lemma parse_row_throws (p : Row) (e : Exception) :
  parse_row policy p = Throws e ↔
  row_As policy p = Throws e
  ∨ (∃ raw, row_As policy p = Returns raw
            ∧ ExtractValue (raw_policy policy) raw = Throws e)
  ∨ (∃ raw value, row_As policy p = Returns raw
                  ∧ ExtractValue (raw_policy policy) raw = Returns value
                  ∧ kKeyMember policy value = Throws e).
Proof.
  unfold parse_row.
  destruct (row_As policy p) as [raw|e1]; simpl.
  - destruct (ExtractValue (raw_policy policy) raw) as [value|e2] eqn:Hv;
      simpl.
    + destruct (kKeyMember policy value) as [key|e3] eqn:Hk; simpl.
      * split; [done |]. intros [?|[(? & [=] & ?)|(? & ? & [= <-] & ? & ?)]];
          congruence.
      * split.
        -- intros [= ->]. right; right. eauto.
        -- intros [?|[(? & [= <-] & ?)|(? & ? & [= <-] & ? & ?)]];
             congruence.
    + split.
      * intros [= ->]. right; left. eauto.
      * intros [?|[(? & [= <-] & ?)|(? & ? & [= <-] & ? & ?)]]; congruence.
  - split.
    + intros [= ->]. by left.
    + intros [?|[(? & ? & ?)|(? & ? & ? & ? & ?)]]; congruence.
Qed.

(** ** The loop body *)

Lemma consume_spec (res : list Row) (loc : Locals K V) :
  consume policy res loc
  = (mkLocals (upsert (data_cache loc) (decoded policy (handled policy res)))
              (mkStats (documents_read_count (stats_scope loc) + length res)
                       (documents_parse_failures (stats_scope loc)
                        + parse_failures policy (handled policy res))
                       (finished (stats_scope loc)))
              (match escaped policy res with
               | Some _ => changes loc
               | None => changes loc + length res
               end),
     escaped policy res).
Proof.
  unfold consume. rewrite CacheResults_spec. simpl.
  by destruct (escaped policy res).
Qed.

Lemma consume_absorbed (res : list Row) (loc : Locals K V) :
  absorbed policy res (consume policy res loc).2 loc
           (consume policy res loc).1.
Proof.
  rewrite consume_spec. unfold absorbed. simpl.
  destruct (escaped policy res); done.
Qed.

Lemma absorb_nil (loc : Locals K V) : absorb policy [] loc = loc.
Proof.
  destruct loc as [data [read failed fin] n]. unfold absorb. simpl.
  rewrite upsert_nil. unfold parse_failures. simpl.
  by rewrite !Nat.add_0_r.
Qed.

Lemma absorb_app (r1 r2 : list Row) (loc : Locals K V) :
  absorb policy (r1 ++ r2) loc = absorb policy r2 (absorb policy r1 loc).
Proof.
  unfold absorb. simpl.
  rewrite decoded_app, upsert_app, parse_failures_app, length_app.
  f_equal; [f_equal|]; lia.
Qed.

Lemma absorbed_nil (exn : option Exception) (loc : Locals K V) :
  absorbed policy [] exn loc loc.
Proof.
  destruct loc as [data [read failed fin] n]. unfold absorbed. simpl.
  rewrite upsert_nil. unfold parse_failures. simpl.
  rewrite !Nat.add_0_r. done.
Qed.

Lemma absorbed_app (r1 r2 : list Row) (exn : option Exception)
    (loc loc1 loc2 : Locals K V) :
  absorbed policy r1 None loc loc1 →
  absorbed policy r2 exn loc1 loc2 →
  absorbed policy (r1 ++ r2) exn loc loc2.
Proof.
  intros (Hd1 & Hs1 & Hc1 & He1) (Hd2 & Hs2 & Hc2 & He2).
  specialize (He1 eq_refl). specialize (Hc1 He1).
  unfold absorbed.
  rewrite handled_app, escaped_app, He1, decoded_app, upsert_app,
    parse_failures_app, length_app.
  rewrite (handled_caught _ He1) in Hd1, Hs1.
  rewrite Hd2, Hd1, Hs2, Hs1. simpl.
  split; [done |]. split; [f_equal; lia |].
  split; [intros He; rewrite (Hc2 He), Hc1; lia | done].
Qed.

Lemma absorbed_caught (rows : list Row) (exn : option Exception)
    (loc loc1 : Locals K V) :
  absorbed policy rows exn loc loc1 →
  escaped policy rows = None →
  loc1 = absorb policy rows loc.
Proof.
  intros (Hd & Hs & Hc & _) He. specialize (Hc He).
  rewrite (handled_caught _ He) in Hd, Hs.
  destruct loc1 as [data1 stats1 n1]. simpl in *. unfold absorb.
  by rewrite Hd, Hs, Hc.
Qed.

(** The [Fetch] loop: the rows it gets, and what it makes of what the
    portal hands over. *)
Lemma fetch_all_spec (portal : PortalRun Row) (loc : Locals K V)
    (got : list Row) :
  ∃ rows,
    (fetch_all policy portal loc got).1.2 = got ++ rows
    ∧ absorbed policy rows (fetch_all policy portal loc got).2 loc
               (fetch_all policy portal loc got).1.1
    ∧ (escaped policy (portal_rows portal) = None →
       rows = portal_rows portal
       ∧ (fetch_all policy portal loc got).2 = portal_thrown portal)
    ∧ (∀ e, escaped policy (portal_rows portal) = Some e →
            escaped policy rows = Some e
            ∧ (fetch_all policy portal loc got).2 = Some e).
Proof.
  revert loc got. induction portal as [res next IH| |e]; intros loc got.
  - simpl. pose proof (consume_absorbed res loc) as Habs.
    pose proof (consume_spec res loc) as Hspec.
    destruct (consume policy res loc) as [loc1 exn]. simpl in *.
    injection Hspec as _ Hexn.
    destruct exn as [e|]; simpl.
    + exists res. split; [done |]. split; [done |].
      rewrite escaped_app, <- Hexn. split; [done |]. by intros ? [= <-].
    + destruct (IH loc1 (got ++ res)) as (rows & Hrows & Habs' & Hc & He).
      exists (res ++ rows). rewrite Hrows, (assoc_L (++)).
      split; [done |]. split; [by eapply absorbed_app |].
      rewrite escaped_app, <- Hexn.
      split; [intros Hnext; destruct (Hc Hnext) as [-> ?]; done |].
      intros e Hnext. destruct (He e Hnext) as [? ?].
      rewrite escaped_app, <- Hexn. done.
  - exists []. simpl. rewrite (right_id_L [] (++)).
    split; [done |]. split; [apply absorbed_nil |]. done.
  - exists []. simpl. rewrite (right_id_L [] (++)).
    split; [done |]. split; [apply absorbed_nil |]. done.
Qed.

(** ** The loop over the clusters *)

Section Loop.
Variable c : PostgreCache K V Cluster.
Variable query : Query.
Variable timeout : Z.
Variable last_update : Z.

Local Abbreviation iterate :=
  (iterate_clusters policy pg c query timeout last_update).
Local Abbreviation answer := (cluster_answer policy pg c query timeout).

(** One iteration, in terms of what the cluster answers: the rows
    [rows] that are fetched before the loop body is left, and the
    exception [exn] that leaves it, if any. When no row of the answer
    throws past the handler, these are the answer itself. *)
Lemma iterate_clusters_cons (cluster : ClusterPtr) (rest : list ClusterPtr)
    (loc : Locals K V) :
  let bound := GetLastUpdated policy c last_update (data_cache loc) in
  let ans := answer cluster bound in
  ∃ rows exn loc1,
    absorbed policy rows exn loc loc1
    ∧ (escaped policy ans.1 = None → rows = ans.1 ∧ exn = ans.2)
    ∧ (∀ e, escaped policy ans.1 = Some e →
            escaped policy rows = Some e ∧ exn = Some e)
    ∧ iterate (cluster :: rest) loc
      = match exn with
        | Some e =>
            (loc1, [new_call policy c query timeout cluster bound rows],
             Some e)
        | None =>
            let later := iterate rest loc1 in
            (later.1.1,
             new_call policy c query timeout cluster bound rows :: later.1.2,
             later.2)
        end.
Proof.
  unfold cluster_answer. simpl.
  destruct (0 <? chunk_size_ c)%nat.
  - destruct (fetch_all_spec
      (Portal pg cluster (kClusterHostTypeFlags policy)
              (command_control timeout) query
              (GetLastUpdated policy c last_update (data_cache loc))
              (chunk_size_ c)) loc []) as (rows & Hrows & Habs & Hc & He).
    simpl in Hrows. rewrite Hrows.
    eexists rows, _, _. split; [exact Habs |].
    split; [exact Hc |]. split; [exact He |]. done.
  - destruct (Execute pg _ _ _ _ _) as [res|e]; simpl.
    + exists res, (consume policy res loc).2, (consume policy res loc).1.
      split; [apply consume_absorbed |].
      rewrite consume_spec. simpl.
      split; [done |]. split; [done |].
      by destruct (escaped policy res).
    + exists [], (Some e), loc.
      split; [apply absorbed_nil |]. done.
Qed.

Lemma fetched_rows_cons (call : DbCall Row U Cluster)
    (calls : list (DbCall Row U Cluster)) :
  fetched_rows (call :: calls) = call_rows call ++ fetched_rows calls.
Proof. done. Qed.

Lemma fetched_rows_singleton (call : DbCall Row U Cluster) :
  fetched_rows [call] = call_rows call.
Proof. unfold fetched_rows. simpl. by rewrite (right_id_L [] (++)). Qed.

(** The locals when the loop is left, whether by return or by throw. *)
Lemma iterate_clusters_absorbed (clusters : list ClusterPtr)
    (loc : Locals K V) :
  absorbed policy (fetched_rows (iterate clusters loc).1.2)
           (iterate clusters loc).2 loc (iterate clusters loc).1.1.
Proof.
  revert loc. induction clusters as [|cluster rest IH]; intros loc.
  - apply absorbed_nil.
  - destruct (iterate_clusters_cons cluster rest loc)
      as (rows & exn & loc1 & Habs & _ & _ & ->).
    destruct exn as [e|]; simpl.
    + by rewrite fetched_rows_singleton.
    + rewrite fetched_rows_cons. simpl.
      eapply absorbed_app; [exact Habs | apply IH].
Qed.

(** Every statement goes out with the query, the timeout and the
    flags of the run. *)
Lemma iterate_clusters_calls (clusters : list ClusterPtr)
    (loc : Locals K V) (call : DbCall Row U Cluster) :
  call ∈ (iterate clusters loc).1.2 →
  call_query call = query
  ∧ call_control call = command_control timeout
  ∧ call_flags call = kClusterHostTypeFlags policy
  ∧ call_chunked call = (0 <? chunk_size_ c)%nat.
Proof.
  revert loc. induction clusters as [|cluster rest IH]; intros loc.
  - simpl. by intros ?%elem_of_nil.
  - destruct (iterate_clusters_cons cluster rest loc)
      as (rows & exn & loc1 & _ & _ & _ & ->).
    destruct exn as [e|]; simpl.
    + by intros ->%list_elem_of_singleton.
    + intros [->|Hin]%elem_of_cons; [done | by eapply IH].
Qed.

(** The statements go to the clusters in order; all of them are
    reached unless an exception leaves the loop. *)
Lemma iterate_clusters_order (clusters : list ClusterPtr)
    (loc : Locals K V) :
  call_cluster <$> (iterate clusters loc).1.2
  = take (length (iterate clusters loc).1.2) clusters
  ∧ ((iterate clusters loc).2 = None →
     length (iterate clusters loc).1.2 = length clusters).
Proof.
  revert loc. induction clusters as [|cluster rest IH]; intros loc.
  - done.
  - destruct (iterate_clusters_cons cluster rest loc)
      as (rows & exn & loc1 & _ & _ & _ & ->).
    destruct exn as [e|]; simpl.
    + split; [by rewrite take_0 | done].
    + destruct (IH loc1) as [IH1 IH2].
      split; [f_equal; exact IH1 | intros ?; f_equal; by apply IH2].
Qed.

(** The first cluster is asked whatever happens next. *)
Lemma iterate_clusters_first (cluster : ClusterPtr) (rest : list ClusterPtr)
    (loc : Locals K V) :
  ∃ call calls,
    (iterate (cluster :: rest) loc).1.2 = call :: calls
    ∧ call_cluster call = cluster
    ∧ call_bound call = GetLastUpdated policy c last_update (data_cache loc).
Proof.
  destruct (iterate_clusters_cons cluster rest loc)
    as (rows & exn & loc1 & _ & _ & _ & ->).
  destruct exn as [e|]; simpl; eauto.
Qed.

(** The exception that leaves the loop is the one the last statement
    ended with, or one that is no [std::exception] and was thrown while
    a row of the last statement was decoded. *)
Lemma iterate_clusters_thrown (clusters : list ClusterPtr)
    (loc : Locals K V) (e : Exception) :
  (iterate clusters loc).2 = Some e →
  ∃ call, last (iterate clusters loc).1.2 = Some call
          ∧ ((answer (call_cluster call) (call_bound call)).2 = Some e
             ∨ derives_from_std_exception e = false
               ∧ escaped policy (call_rows call) = Some e).
Proof.
  revert loc. induction clusters as [|cluster rest IH]; intros loc.
  - done.
  - destruct (iterate_clusters_cons cluster rest loc)
      as (rows & exn & loc1 & _ & Hcaught & Hescaped & ->).
    destruct exn as [e0|]; simpl.
    + intros [= ->]. eexists. split; [done |]. simpl.
      destruct (escaped policy (answer cluster
        (GetLastUpdated policy c last_update (data_cache loc))).1)
        as [e'|] eqn:Hans.
      * destruct (Hescaped e' eq_refl) as [Hrows [= ->]].
        right. split; [|done]. by eapply escaped_not_std.
      * destruct (Hcaught eq_refl) as [_ Hexn]. by left.
    + intros Hlater. destruct (IH loc1 Hlater) as (call & Hlast & Hcall).
      exists call. split; [|done].
      destruct (iterate rest loc1).1.2 as [|call' calls]; [done |].
      exact Hlast.
Qed.



Lemma result_sets_cons (cluster : ClusterPtr) (rest : list ClusterPtr)
    (container : gmap K V) :
  result_sets policy pg c query timeout last_update (cluster :: rest) container
  = let ans :=
      answer cluster (GetLastUpdated policy c last_update container) in
    match ans.2 with
    | Some _ => None
    | None =>
        match result_sets policy pg c query timeout last_update rest
                          (upsert container (decoded policy ans.1)) with
        | Some later => Some (ans.1 :: later)
        | None => None
        end
    end.
Proof. done. Qed.

(** When every cluster answers and no row throws past the handler, the
    loop fetches what the clusters hand over, one statement per
    cluster, and returns. *)
Lemma iterate_clusters_result_sets (clusters : list ClusterPtr)
    (loc : Locals K V) (Rs : list (list Row)) :
  result_sets policy pg c query timeout last_update clusters (data_cache loc)
  = Some Rs →
  escaped policy (concat Rs) = None →
  (iterate clusters loc).1.1 = absorb policy (concat Rs) loc
  ∧ call_rows <$> (iterate clusters loc).1.2 = Rs
  ∧ call_cluster <$> (iterate clusters loc).1.2 = clusters
  ∧ (iterate clusters loc).2 = None.
Proof.
  revert loc Rs. induction clusters as [|cluster rest IH]; intros loc Rs.
  - intros [= <-] _. simpl. by rewrite absorb_nil.
  - rewrite result_sets_cons.
    destruct (iterate_clusters_cons cluster rest loc)
      as (rows & exn & loc1 & Habs & Hcaught & _ & ->).
    simpl.
    destruct (answer cluster
      (GetLastUpdated policy c last_update (data_cache loc)))
      as [res [e|]] eqn:Hans; simpl in *; [done |].
    destruct (result_sets policy pg c query timeout last_update rest _)
      as [later|] eqn:Hlater; [|done].
    intros [= <-]. simpl. intros [Hres Hrest]%escaped_app_None.
    destruct (Hcaught Hres) as [-> ->].
    pose proof (absorbed_caught _ _ _ _ Habs Hres) as ->.
    destruct (IH (absorb policy res loc) later Hlater Hrest)
      as (IH1 & IH2 & IH3 & IH4).
    cbn [fst snd]. rewrite !fmap_cons, IH1, IH2, IH3, IH4, absorb_app. done.
Qed.

(** The loop reads the component only through [chunk_size_] and
    [correction_]. *)
Lemma iterate_clusters_config (c' : PostgreCache K V Cluster)
    (clusters : list ClusterPtr) (loc : Locals K V) :
  chunk_size_ c' = chunk_size_ c →
  correction_ c' = correction_ c →
  iterate_clusters policy pg c' query timeout last_update clusters loc
  = iterate clusters loc.
Proof.
  intros Hchunk Hcorr. revert loc.
  induction clusters as [|cluster rest IH]; intros loc; [done |].
  simpl. unfold new_call, GetLastUpdated. rewrite Hchunk, Hcorr.
  destruct (0 <? chunk_size_ c)%nat.
  - destruct (fetch_all _ _ _ _).2; [done |]. by rewrite IH.
  - destruct (Execute pg _ _ _ _ _) as [res|e]; [|done].
    destruct (consume policy res loc).2; [done |]. by rewrite IH.
Qed.
End Loop.

(** ** [GetDataSnapshot] *)

Lemma GetDataSnapshot_full (c : PostgreCache K V Cluster) :
  GetDataSnapshot c kFull = ∅.
Proof. done. Qed.

Lemma GetDataSnapshot_incremental (c : PostgreCache K V Cluster) :
  GetDataSnapshot c kIncremental = default ∅ (published c).
Proof. unfold GetDataSnapshot. simpl. by destruct (published c). Qed.

(** ** [Update] *)

Section Run.
Variable c : PostgreCache K V Cluster.
Variable type : UpdateType.
Variable last_update now : Z.
Variable stats : UpdateStatisticsScope.
Variable scope : ScopeTime Duration.

Local Abbreviation o := (Update policy pg c type last_update now stats scope).
Local Abbreviation eff := (effective_type policy type).
Local Abbreviation rows := (fetched_rows (db_calls o)).
Local Abbreviation working :=
  (upsert (GetDataSnapshot c eff) (decoded policy rows)).

Lemma Update_loop :
  db_calls o
  = (iterate_clusters policy pg c (update_query policy eff)
       (update_timeout c eff) last_update (clusters_ c)
       (mkLocals (GetDataSnapshot c eff) stats 0)).1.2
  ∧ thrown o
  = (iterate_clusters policy pg c (update_query policy eff)
       (update_timeout c eff) last_update (clusters_ c)
       (mkLocals (GetDataSnapshot c eff) stats 0)).2.
Proof.
  unfold Update.
  destruct (iterate_clusters _ _ _ _ _ _ _ _).2; [done |].
  by destruct (_ || _).
Qed.

(** The locals when [Update] is left, whether by return or by throw. *)
Lemma Update_locals :
  data_cache (locals_after o)
  = upsert (GetDataSnapshot c eff) (decoded policy (handled policy rows))
  ∧ documents_read_count (stats_scope (locals_after o))
    = documents_read_count stats + length rows
  ∧ documents_parse_failures (stats_scope (locals_after o))
    = documents_parse_failures stats
      + parse_failures policy (handled policy rows)
  ∧ (escaped policy rows = None → changes (locals_after o) = length rows)
  ∧ (thrown o = None → escaped policy rows = None).
Proof.
  destruct Update_loop as [-> _].
  pose proof (iterate_clusters_absorbed c (update_query policy eff)
    (update_timeout c eff) last_update (clusters_ c)
    (mkLocals (GetDataSnapshot c eff) stats 0)) as (Hd & Hs & Hc & He).
  revert Hd Hs Hc He. unfold Update. simpl.
  destruct (iterate_clusters _ _ _ _ _ _ _ _).2; simpl.
  - intros -> -> Hc _. done.
  - intros Hd Hs Hc He.
    destruct (_ || _); simpl; rewrite Hs; simpl; auto.
Qed.

Lemma Update_thrown (e : Exception) :
  thrown o = Some e → cache_after o = c.
Proof.
  unfold Update.
  destruct (iterate_clusters _ _ _ _ _ _ _ _).2; [done |].
  by destruct (_ || _).
Qed.

(** The locals of an [Update] that returns. *)
Lemma Update_locals_returned :
  thrown o = None →
  data_cache (locals_after o) = working
  ∧ changes (locals_after o) = length rows
  ∧ documents_read_count (stats_scope (locals_after o))
    = documents_read_count stats + length rows
  ∧ documents_parse_failures (stats_scope (locals_after o))
    = documents_parse_failures stats + parse_failures policy rows.
Proof.
  intros Hret. destruct Update_locals as (Hd & Hr & Hf & Hc & He).
  specialize (He Hret). specialize (Hc He).
  rewrite (handled_caught _ He) in Hd, Hf. done.
Qed.

Lemma Update_returned :
  thrown o = None →
  cache_after o
  = (if (0 <? length rows)%nat || bool_decide (eff = kFull)
     then Set_ working (adapt_cpu_relax scope (length rows) c)
     else adapt_cpu_relax scope (length rows) c)
  ∧ finished (stats_scope (locals_after o))
    = (if (0 <? length rows)%nat || bool_decide (eff = kFull)
       then Finish (size working) else FinishNoChanges).
Proof.
  intros Hret.
  destruct (Update_locals_returned Hret) as (Hdata & Hchanges & _).
  destruct Update_loop as [Hcalls _].
  revert Hret Hdata Hchanges. rewrite Hcalls. clear Hcalls. unfold Update.
  destruct (iterate_clusters _ _ _ _ _ _ _ _).2; [done |].
  intros _ Hdata Hchanges.
  destruct (_ || _) eqn:Hpub; simpl in *;
    rewrite <- ?Hdata, <- ?Hchanges, Hpub; done.
Qed.

(** [Update] and the database's side of it. *)
Lemma Update_result_sets (Rs : list (list Row)) :
  result_sets policy pg c (update_query policy eff) (update_timeout c eff)
              last_update (clusters_ c) (GetDataSnapshot c eff) = Some Rs →
  escaped policy (concat Rs) = None →
  thrown o = None
  ∧ call_rows <$> db_calls o = Rs
  ∧ call_cluster <$> db_calls o = clusters_ c
  ∧ rows = concat Rs.
Proof.
  intros HRs Hcaught.
  destruct Update_loop as [Hcalls Hthrown].
  destruct (iterate_clusters_result_sets c (update_query policy eff)
    (update_timeout c eff) last_update (clusters_ c)
    (mkLocals (GetDataSnapshot c eff) stats 0) Rs HRs Hcaught)
    as (_ & Hrows & Hclusters & Hnone).
  rewrite Hthrown. unfold fetched_rows. rewrite Hcalls, Hrows. done.
Qed.

Lemma adapt_cpu_relax_others (n : nat) :
  published (adapt_cpu_relax scope n c) = published c
  ∧ set_count (adapt_cpu_relax scope n c) = set_count c.
Proof.
  unfold adapt_cpu_relax.
  destruct (0 <? n)%nat; [|done]. by destruct (over_kCpuRelaxThreshold _ _).
Qed.

Lemma publish_condition :
  (0 <? length rows)%nat || bool_decide (eff = kFull) = true
  ↔ eff = kFull ∨ 0 < length rows.
Proof.
  rewrite orb_true_iff, Nat.ltb_lt, bool_decide_eq_true. tauto.
Qed.

(** What an [Update] that returns has published. *)
Lemma Update_published :
  thrown o = None →
  published (cache_after o)
  = (if (0 <? length rows)%nat || bool_decide (eff = kFull)
     then Some working else published c)
  ∧ set_count (cache_after o)
    = (if (0 <? length rows)%nat || bool_decide (eff = kFull)
       then S (set_count c) else set_count c).
Proof.
  intros Hret. destruct (Update_returned Hret) as [-> _].
  destruct (adapt_cpu_relax_others (length rows)) as [Hpub Hset].
  destruct (_ || _); simpl; by rewrite ?Hset, ?Hpub.
Qed.
End Run.

(** ** Publication *)

(** C1. An [Update] that returns calls [Set] exactly when its kind
    (after the coercion of a policy without update field) is full or it
    fetched at least one row. It then publishes the working container
    and reports its size; a full update without rows publishes the
    empty container. Otherwise the published snapshot stays as it was
    and the statistics report no changes. *)
Theorem Update_publishes_iff (c : PostgreCache K V Cluster)
    (type : UpdateType) (last_update now : Z)
    (stats : UpdateStatisticsScope) (scope : ScopeTime Duration) :
  let o := Update policy pg c type last_update now stats scope in
  let full := effective_type policy type = kFull in
  let n := length (fetched_rows (db_calls o)) in
  thrown o = None →
  changes (locals_after o) = n
  ∧ (set_count (cache_after o) = S (set_count c) ↔ full ∨ 0 < n)
  ∧ (full ∨ 0 < n →
     published (cache_after o) = Some (data_cache (locals_after o))
     ∧ finished (stats_scope (locals_after o))
       = Finish (size (data_cache (locals_after o))))
  ∧ (¬ (full ∨ 0 < n) →
     published (cache_after o) = published c
     ∧ set_count (cache_after o) = set_count c
     ∧ finished (stats_scope (locals_after o)) = FinishNoChanges)
  ∧ (full → n = 0 → published (cache_after o) = Some ∅).
Proof.
  intros o full n Hret. subst o full n.
  destruct (Update_locals_returned c type last_update now stats scope Hret)
    as (Hdata & Hchanges & _).
  destruct (Update_returned c type last_update now stats scope Hret)
    as [Hcache Hfin].
  pose proof (publish_condition c type last_update now stats scope) as Hcond.
  pose proof (adapt_cpu_relax_others c scope
    (length (fetched_rows
       (db_calls (Update policy pg c type last_update now stats scope)))))
    as [Hpub Hset].
  rewrite Hcache, Hfin, Hdata. clear Hcache Hfin.
  destruct (_ || _); simpl.
  - rewrite Hset. apply proj1 in Hcond. specialize (Hcond eq_refl).
    repeat split; try done.
    intros Hfull Hzero.
    apply nil_length_inv in Hzero. rewrite Hzero, Hfull. simpl.
    by rewrite upsert_nil.
  - rewrite Hset, Hpub.
    assert (¬ (effective_type policy type = kFull
               ∨ 0 < length (fetched_rows (db_calls
                   (Update policy pg c type last_update now stats scope)))))
      as Hno by (intros Hyes; apply Hcond in Hyes; done).
    repeat split; try done; try tauto; try lia.
Qed.

(** C2. An incremental update of a cache whose policy has an update
    field starts from the published snapshot [S]. When the clusters,
    asked one after the other with the delta query and the
    incremental-update timeout, hand over the result sets [Rs], the
    update returns having fetched exactly these, one per cluster, and
    leaves [upsert S R] published, [R] being the rows of [Rs] that
    decode: no key of [S] disappears, the keys are those of [S] and of
    [R], a key that [R] does not mention keeps its value, and a key that
    [R] mentions gets the value of its last row. *)
Theorem incremental_update_upserts (c : PostgreCache K V Cluster)
    (S : gmap K V) (last_update now : Z)
    (stats : UpdateStatisticsScope) (scope : ScopeTime Duration)
    (Rs : list (list Row)) :
  let o := Update policy pg c kIncremental last_update now stats scope in
  let R := decoded policy (concat Rs) in
  kIncrementalUpdates (queries policy) = true →
  published c = Some S →
  result_sets policy pg c (GetDeltaQuery (queries policy))
              (incremental_update_timeout_ c) last_update (clusters_ c) S
  = Some Rs →
  escaped policy (concat Rs) = None →
  thrown o = None
  ∧ call_cluster <$> db_calls o = clusters_ c
  ∧ call_rows <$> db_calls o = Rs
  ∧ published (cache_after o) = Some (upsert S R)
  ∧ dom S ⊆ dom (upsert S R)
  ∧ dom (upsert S R) = dom S ∪ keys R
  ∧ (∀ k, k ∉ R.*1 → upsert S R !! k = S !! k)
  ∧ (∀ R1 k v R2, R = R1 ++ (k, v) :: R2 → k ∉ R2.*1 →
       upsert S R !! k = Some v).
Proof.
  intros o R Hinc HS HRs Hcaught. subst o R.
  assert (effective_type policy kIncremental = kIncremental) as Heff
    by (unfold effective_type; by rewrite Hinc).
  destruct (Update_result_sets c kIncremental last_update now stats scope Rs)
    as (Hret & Hrows & Hclusters & Hfetched); [|done |].
  { rewrite Heff, GetDataSnapshot_incremental, HS. exact HRs. }
  destruct (Update_published c kIncremental last_update now stats scope Hret)
    as [Hpub _].
  rewrite Heff, GetDataSnapshot_incremental, HS, Hfetched, orb_false_r
    in Hpub. simpl in Hpub.
  split; [done |]. split; [done |]. split; [done |].
  split; [|split; [|split; [|split]]].
  - rewrite Hpub. destruct (0 <? _)%nat eqn:Hn; [done |].
    apply Nat.ltb_ge, Nat.le_0_r, nil_length_inv in Hn.
    rewrite Hn. simpl. by rewrite upsert_nil.
  - rewrite upsert_dom. apply union_subseteq_l.
  - apply upsert_dom.
  - intros k. apply upsert_lookup_other.
  - intros R1 k v R2 -> Hk. by apply upsert_lookup_last.
Qed.

(** C3. The working container of a full update starts empty; a copy of
    the published snapshot is taken only for an incremental update when
    a snapshot has been published. So when the clusters, asked one
    after the other with the full query and the full-update timeout,
    hand over the result sets [Rs], a full update returns having fetched
    exactly these and publishes a container whose keys are exactly the
    keys of the rows of [Rs] that decode, whatever was published
    before. *)
Theorem full_update_key_set (c : PostgreCache K V Cluster)
    (type : UpdateType) (last_update now : Z)
    (stats : UpdateStatisticsScope) (scope : ScopeTime Duration)
    (Rs : list (list Row)) :
  let o := Update policy pg c type last_update now stats scope in
  let R := decoded policy (concat Rs) in
  effective_type policy type = kFull →
  result_sets policy pg c (GetAllQuery (queries policy))
              (full_update_timeout_ c) last_update (clusters_ c) ∅
  = Some Rs →
  escaped policy (concat Rs) = None →
  GetDataSnapshot c kFull = ∅
  ∧ (∀ S, published c = Some S → GetDataSnapshot c kIncremental = S)
  ∧ (published c = None → GetDataSnapshot c kIncremental = ∅)
  ∧ thrown o = None
  ∧ call_cluster <$> db_calls o = clusters_ c
  ∧ call_rows <$> db_calls o = Rs
  ∧ published (cache_after o) = Some (upsert ∅ R)
  ∧ set_count (cache_after o) = Datatypes.S (set_count c)
  ∧ dom (upsert ∅ R) = keys R.
Proof.
  intros o R Hfull HRs Hcaught. subst o R.
  destruct (Update_result_sets c type last_update now stats scope Rs)
    as (Hret & Hrows & Hclusters & Hfetched); [|done |].
  { rewrite Hfull. exact HRs. }
  destruct (Update_published c type last_update now stats scope Hret)
    as [Hpub Hset].
  rewrite Hfull, Hfetched, orb_true_r in Hpub, Hset.
  split; [done |]. split; [|split].
  - intros S HS. by rewrite GetDataSnapshot_incremental, HS.
  - intros HS. by rewrite GetDataSnapshot_incremental, HS.
  - do 5 (split; [done |]).
    rewrite upsert_dom, dom_empty_L. by rewrite (left_id_L ∅ (∪)).
Qed.

(** ** The kind of an update *)

(** C5. With a policy whose update field is null or empty, [Update]
    runs as a full update whatever kind the caller asks for: it starts
    from an empty container, every statement carries the full query and
    the full-update timeout, and such a statement goes to the first
    cluster in any case. When the clusters, asked with the full query
    and the full-update timeout, hand over the result sets [Rs], the
    update fetches these and publishes the rows that decode, also when
    the caller asked for an incremental update and nothing came. *)
Theorem no_update_field_forces_full (c : PostgreCache K V Cluster)
    (type : UpdateType) (last_update now : Z)
    (stats : UpdateStatisticsScope) (scope : ScopeTime Duration) :
  let o := Update policy pg c type last_update now stats scope in
  kIncrementalUpdates (queries policy) = false →
  effective_type policy type = kFull
  ∧ o = Update policy pg c kFull last_update now stats scope
  ∧ (∀ call,
       call ∈ db_calls o →
       call_query call = GetAllQuery (queries policy)
       ∧ call_control call
         = mkCommandControl (full_update_timeout_ c) kStatementTimeoutOff)
  ∧ (∀ cluster rest,
       clusters_ c = cluster :: rest →
       ∃ call calls,
         db_calls o = call :: calls
         ∧ call_cluster call = cluster
         ∧ call_query call = GetAllQuery (queries policy)
         ∧ call_control call
           = mkCommandControl (full_update_timeout_ c) kStatementTimeoutOff
         ∧ call_bound call = GetLastUpdated policy c last_update ∅)
  ∧ (∀ Rs,
       result_sets policy pg c (GetAllQuery (queries policy))
                   (full_update_timeout_ c) last_update (clusters_ c) ∅
       = Some Rs →
       escaped policy (concat Rs) = None →
       thrown o = None
       ∧ call_cluster <$> db_calls o = clusters_ c
       ∧ call_rows <$> db_calls o = Rs
       ∧ published (cache_after o)
         = Some (upsert ∅ (decoded policy (concat Rs)))
       ∧ set_count (cache_after o) = S (set_count c)).
Proof.
  intros o Hno. subst o.
  assert (∀ t, effective_type policy t = kFull) as Heff
    by (intros t; unfold effective_type; by rewrite Hno).
  destruct (Update_loop c type last_update now stats scope) as [Hcalls _].
  rewrite Heff in Hcalls.
  split; [apply Heff |]. split; [|split; [|split]].
  - unfold Update. by rewrite !Heff.
  - intros call Hcall. rewrite Hcalls in Hcall.
    apply iterate_clusters_calls in Hcall as (Hq & Hc & _).
    rewrite Hq, Hc. done.
  - intros cluster rest Hclusters. rewrite Hcalls, Hclusters.
    destruct (iterate_clusters_first c (update_query policy kFull)
      (update_timeout c kFull) last_update cluster rest
      (mkLocals (GetDataSnapshot c kFull) stats 0))
      as (call & calls & Hfirst & Hcluster & Hbound).
    exists call, calls. split; [done |]. split; [done |].
    assert (call ∈ (iterate_clusters policy pg c (update_query policy kFull)
      (update_timeout c kFull) last_update (cluster :: rest)
      (mkLocals (GetDataSnapshot c kFull) stats 0)).1.2) as Hin
      by (rewrite Hfirst; by left).
    apply iterate_clusters_calls in Hin as (Hq & Hc & _).
    rewrite Hq, Hc. done.
  - intros Rs HRs Hcaught.
    destruct (Update_result_sets c type last_update now stats scope Rs)
      as (Hret & Hrows & Hclusters & Hfetched); [|done |].
    { rewrite Heff. exact HRs. }
    destruct (Update_published c type last_update now stats scope Hret)
      as [Hpub Hset].
    rewrite Heff, Hfetched, orb_true_r in Hpub, Hset. done.
Qed.

(** ** Rows that cannot be decoded *)

Lemma decoded_throws (rows : list Row) :
  Forall (λ p, ∃ e, parse_row policy p = Throws e) rows →
  decoded policy rows = [].
Proof.
  induction 1 as [|p rows [e He] _ IH]; [done |].
  by rewrite decoded_cons, He.
Qed.




(** ** The bound of the delta query *)


(** ** What counts as a change *)

Lemma parse_failures_le (rows : list Row) :
  parse_failures policy rows ≤ length rows.
Proof. unfold parse_failures. apply List.filter_length_le. Qed.

Lemma decoded_or_failed (rows : list Row) :
  length rows = length (decoded policy rows) + parse_failures policy rows.
Proof.
  induction rows as [|p rows IH]; [done |].
  rewrite decoded_cons, parse_failures_cons. simpl.
  destruct (parse_row policy p); simpl; lia.
Qed.

Lemma adapt_cpu_relax_iterations (c : PostgreCache K V Cluster)
    (scope : ScopeTime Duration) (n : nat) :
  cpu_relax_iterations_ (adapt_cpu_relax scope n c)
  = if (0 <? n)%nat
       && over_kCpuRelaxThreshold scope (ElapsedTotal_parse scope)
    then relax_quotient scope n (ElapsedTotal_parse scope)
    else cpu_relax_iterations_ c.
Proof.
  unfold adapt_cpu_relax.
  destruct (0 <? n)%nat; [|done].
  by destruct (over_kCpuRelaxThreshold _ _).
Qed.

(** The relax iterations that an [Update] which returns leaves. *)
Lemma Update_cpu_relax_iterations (c : PostgreCache K V Cluster)
    (type : UpdateType) (last_update now : Z)
    (stats : UpdateStatisticsScope) (scope : ScopeTime Duration) :
  let o := Update policy pg c type last_update now stats scope in
  thrown o = None →
  cpu_relax_iterations_ (cache_after o)
  = if (0 <? length (fetched_rows (db_calls o)))%nat
       && over_kCpuRelaxThreshold scope (ElapsedTotal_parse scope)
    then relax_quotient scope (length (fetched_rows (db_calls o)))
                        (ElapsedTotal_parse scope)
    else cpu_relax_iterations_ c.
Proof.
  intros o Hret. subst o.
  destruct (Update_returned c type last_update now stats scope Hret)
    as [Hcache _].
  rewrite Hcache, <- adapt_cpu_relax_iterations.
  by destruct (_ || _).
Qed.

(** [cpu_relax_iterations_] changes only in an [Update] that returns
    with rows after a long parse phase. *)
Lemma Update_cpu_relax_iterations_kept (c : PostgreCache K V Cluster)
    (type : UpdateType) (last_update now : Z)
    (stats : UpdateStatisticsScope) (scope : ScopeTime Duration) :
  let o := Update policy pg c type last_update now stats scope in
  thrown o ≠ None
  ∨ fetched_rows (db_calls o) = []
  ∨ over_kCpuRelaxThreshold scope (ElapsedTotal_parse scope) = false →
  cpu_relax_iterations_ (cache_after o) = cpu_relax_iterations_ c.
Proof.
  intros o Hcase. subst o.
  destruct (thrown (Update policy pg c type last_update now stats scope))
    as [e|] eqn:Hthrown.
  { by rewrite (Update_thrown c type last_update now stats scope e). }
  rewrite (Update_cpu_relax_iterations c type last_update now stats scope
             Hthrown).
  destruct Hcase as [?|[Hrows| ->]]; [done | |].
  - by rewrite Hrows.
  - by rewrite andb_false_r.
Qed.

(** C10. [changes] is the number of rows that the clusters hand over,
    the rows that fail to decode included. So an update for which the
    clusters hand over rows none of which decodes still calls [Set],
    with a container equal to the one it started from (for an
    incremental update, the snapshot published before), and the
    adaptation of [cpu_relax_iterations_] is computed from the number of
    rows handed over. *)
Theorem changes_count_fetched_rows (c : PostgreCache K V Cluster)
    (type : UpdateType) (last_update now : Z)
    (stats : UpdateStatisticsScope) (scope : ScopeTime Duration)
    (Rs : list (list Row)) :
  let o := Update policy pg c type last_update now stats scope in
  let eff := effective_type policy type in
  let rows := concat Rs in
  result_sets policy pg c (update_query policy eff) (update_timeout c eff)
              last_update (clusters_ c) (GetDataSnapshot c eff) = Some Rs →
  escaped policy rows = None →
  thrown o = None
  ∧ call_rows <$> db_calls o = Rs
  ∧ changes (locals_after o) = length rows
  ∧ documents_read_count (stats_scope (locals_after o))
    = documents_read_count stats + length rows
  ∧ documents_parse_failures (stats_scope (locals_after o))
    = documents_parse_failures stats + parse_failures policy rows
  ∧ length rows
    = length (decoded policy rows) + parse_failures policy rows
  ∧ (0 < length rows →
     Forall (λ p, ∃ e, parse_row policy p = Throws e) rows →
     set_count (cache_after o) = S (set_count c)
     ∧ published (cache_after o) = Some (GetDataSnapshot c eff)
     ∧ (∀ S0, eff = kIncremental → published c = Some S0 →
          published (cache_after o) = Some S0))
  ∧ cpu_relax_iterations_ (cache_after o)
    = (if (0 <? length rows)%nat
          && over_kCpuRelaxThreshold scope (ElapsedTotal_parse scope)
       then relax_quotient scope (length rows) (ElapsedTotal_parse scope)
       else cpu_relax_iterations_ c).
Proof.
  intros o eff rows HRs Hcaught. subst o eff rows.
  destruct (Update_result_sets c type last_update now stats scope Rs
              HRs Hcaught) as (Hret & Hcalls & _ & Hfetched).
  destruct (Update_locals_returned c type last_update now stats scope Hret)
    as (_ & Hchanges & Hread & Hfail).
  destruct (Update_published c type last_update now stats scope Hret)
    as [Hpub Hset].
  pose proof (Update_cpu_relax_iterations c type last_update now stats scope
                Hret) as Hrelax.
  rewrite Hfetched in *.
  do 5 (split; [done |]). split; [|split].
  - apply decoded_or_failed.
  - intros Hpos Hall.
    apply Nat.ltb_lt in Hpos. rewrite Hpos in Hpub, Hset. simpl in *.
    rewrite (decoded_throws _ Hall), upsert_nil in Hpub.
    split; [done |]. split; [done |].
    intros S0 Heff HS0. rewrite Hpub, Heff.
    by rewrite GetDataSnapshot_incremental, HS0.
  - done.
Qed.

(** ** The relax iterations *)

Lemma size_t_of_double_fits (x : PrimFloat.float) :
  fits_size_t x = true →
  double_trunc x = Some (Z.of_nat (size_t_of_double x)).
Proof.
  intros Hfits. unfold size_t_of_double. rewrite Hfits.
  unfold fits_size_t in Hfits.
  destruct (double_trunc x) as [z|]; [|done]. simpl.
  apply andb_true_iff in Hfits as [Hz _]. apply Z.leb_le in Hz.
  by rewrite Z2Nat.id.
Qed.

(** C8. When the clusters hand over [n] rows to an update, [n > 0] and
    the parse phase took more than [kCpuRelaxThreshold] (10 ms),
    [cpu_relax_iterations_] becomes the double-precision quotient of
    [n] by the double [elapsed / kCpuRelaxInterval] (the parse phase in
    units of 2 ms), cut to its integral part where that is a [size_t].
    When [n] is zero or the parse phase took no more than the threshold
    the count stays as it was; and the next update starts from the
    count this one left, keeping it unless it adapts it in turn. *)
Theorem relax_iterations_adapted (c : PostgreCache K V Cluster)
    (type : UpdateType) (last_update now : Z)
    (stats : UpdateStatisticsScope) (scope : ScopeTime Duration)
    (Rs : list (list Row)) :
  let o := Update policy pg c type last_update now stats scope in
  let eff := effective_type policy type in
  let n := length (concat Rs) in
  let elapsed := ElapsedTotal_parse scope in
  let over := duration_gtb scope elapsed (RealMilliseconds_of scope 10) in
  let quotient :=
    PrimFloat.div (double_of_size_t n)
                  (duration_ratio scope elapsed
                                  (RealMilliseconds_of scope 2)) in
  result_sets policy pg c (update_query policy eff) (update_timeout c eff)
              last_update (clusters_ c) (GetDataSnapshot c eff) = Some Rs →
  escaped policy (concat Rs) = None →
  thrown o = None
  ∧ changes (locals_after o) = n
  ∧ (0 < n → over = true →
     cpu_relax_iterations_ (cache_after o) = size_t_of_double quotient
     ∧ (fits_size_t quotient = true →
        double_trunc quotient
        = Some (Z.of_nat (cpu_relax_iterations_ (cache_after o)))))
  ∧ (n = 0 ∨ over = false →
     cpu_relax_iterations_ (cache_after o) = cpu_relax_iterations_ c)
  ∧ (∀ type' last_update' now' stats' (scope' : ScopeTime Duration),
       let o' := Update policy pg (cache_after o) type' last_update' now'
                        stats' scope' in
       thrown o' ≠ None
       ∨ fetched_rows (db_calls o') = []
       ∨ duration_gtb scope' (ElapsedTotal_parse scope')
                      (RealMilliseconds_of scope' 10) = false →
       cpu_relax_iterations_ (cache_after o')
       = cpu_relax_iterations_ (cache_after o)).
Proof.
  intros o eff n elapsed over quotient HRs Hcaught.
  subst o eff n elapsed over quotient.
  destruct (Update_result_sets c type last_update now stats scope Rs
              HRs Hcaught) as (Hret & _ & _ & Hfetched).
  destruct (Update_locals_returned c type last_update now stats scope Hret)
    as (_ & Hchanges & _).
  pose proof (Update_cpu_relax_iterations c type last_update now stats scope
                Hret) as Hrelax.
  rewrite Hfetched in *.
  unfold over_kCpuRelaxThreshold, kCpuRelaxThreshold in Hrelax.
  split; [done |]. split; [done |]. split; [|split].
  - intros Hpos Hover. apply Nat.ltb_lt in Hpos.
    rewrite Hpos, Hover in Hrelax. simpl in Hrelax.
    unfold relax_quotient, kCpuRelaxInterval in Hrelax.
    split; [done |]. intros Hfits. rewrite Hrelax.
    by apply size_t_of_double_fits.
  - intros [Hzero|Hshort].
    + by rewrite Hzero in Hrelax.
    + by rewrite Hshort, andb_false_r in Hrelax.
  - intros type' last_update' now' stats' scope' o' Hcase. subst o'.
    by apply Update_cpu_relax_iterations_kept.
Qed.

(** ** Construction *)

Lemma int64_wrap_range (z : Z) : (- 2 ^ 63 ≤ int64_wrap z < 2 ^ 63)%Z.
Proof.
  unfold int64_wrap.
  pose proof (Z.mod_pos_bound (z + 2 ^ 63) (2 ^ 64) ltac:(done)). lia.
Qed.

Lemma int64_wrap_small (z : Z) :
  (- 2 ^ 63 ≤ z < 2 ^ 63)%Z → int64_wrap z = z.
Proof.
  intros Hz. unfold int64_wrap. rewrite Z.mod_small; lia.
Qed.

(** Corrections of up to 9223372036854 ms either way fit the clock's
    tick count. *)
Lemma correction_ticks_small (ms : Z) :
  (- 9223372036854 ≤ ms ≤ 9223372036854)%Z →
  int64_wrap (ms * system_clock_ticks_per_milli)
  = (ms * system_clock_ticks_per_milli)%Z.
Proof.
  intros Hms. apply int64_wrap_small. unfold system_clock_ticks_per_milli. lia.
Qed.

Lemma fill_clusters_from (pgc : PostgresComponent Cluster) (b a : nat)
    (clusters filled : list ClusterPtr) :
  a + b ≤ length clusters →
  fill_clusters pgc (seq a b) clusters = Returns filled →
  length filled = length clusters
  ∧ (∀ i, a ≤ i < a + b →
       ∃ cluster, GetClusterForShard pgc i = Returns cluster
                  ∧ filled !! i = Some cluster)
  ∧ (∀ i, ¬ a ≤ i < a + b → filled !! i = clusters !! i).
Proof.
  revert a clusters. induction b as [|b IH]; intros a clusters Hlen; simpl.
  - intros [= <-]. split; [done |]. split; [lia | done].
  - destruct (GetClusterForShard pgc a) as [cluster|e] eqn:Ha; [|done].
    intros Hfill.
    destruct (IH (S a) (<[a := cluster]> clusters)) as (IHlen & IHin & IHout);
      [rewrite length_insert; lia | done |].
    rewrite length_insert in IHlen. split; [done |]. split.
    + intros i Hi. destruct (decide (i = a)) as [->|Hne].
      * exists cluster. split; [done |].
        rewrite IHout by lia. apply list_lookup_insert_eq. lia.
      * apply IHin. lia.
    + intros i Hi. rewrite IHout by lia.
      apply list_lookup_insert_ne. lia.
Qed.



(** What the constructor has done when it returns. *)
Lemma ctor_returns (base : BaseType K V Cluster) (config : ComponentConfig)
    (context : ComponentContext Cluster) (c : PostgreCache K V Cluster) :
  PostgreCache_ctor policy base config context = Returns c →
  ∃ pgc clusters,
    FindComponent context (default EmptyString (pgcomponent config))
    = Returns pgc
    ∧ length clusters = GetShardCount pgc
    ∧ (∀ i, i < GetShardCount pgc →
         ∃ cluster, GetClusterForShard pgc i = Returns cluster
                    ∧ clusters !! i = Some cluster)
    ∧ (0 ≤ int64_wrap (default 0 (update_correction config)
                       * system_clock_ticks_per_milli))%Z
    ∧ StartPeriodicUpdates base
        (mkCache (base_published base) (base_set_count base)
           (base_periodic_updates base) clusters
           (int64_wrap (default 0 (update_correction config)
                        * system_clock_ticks_per_milli)%Z)
           (default kDefaultFullUpdateTimeout (full_update_op_timeout config))
           (default kDefaultIncrementalUpdateTimeout
                    (incremental_update_op_timeout config))
           (default 0 (chunk_size config)) 0)
      = Returns c.
Proof.
  unfold PostgreCache_ctor.
  destruct (_ && _); [done |].
  destruct (Z.ltb_spec
    (int64_wrap (default 0 (update_correction config)
                 * system_clock_ticks_per_milli)%Z) 0%Z); [done |].
  destruct (String.eqb _ _); [done |].
  destruct (FindComponent context _) as [pgc|e]; [|done].
  destruct (fill_clusters pgc _ _) as [clusters|e] eqn:Hfill; [|done].
  intros Hstart. exists pgc, clusters.
  destruct (fill_clusters_from pgc (GetShardCount pgc) 0
              (replicate (GetShardCount pgc) None) clusters)
    as (Hlen & Hin & _); [rewrite length_replicate; lia | done |].
  rewrite length_replicate in Hlen.
  split; [done |]. split; [done |].
  split; [intros i Hi; apply Hin; lia |]. done.
Qed.


End Proofs.

(** * Further properties of the component *)

Section Behaviour.
Context {K : Type} `{Countable K} {V Row U Cluster Duration : Type}.
Variable policy : Policy K V Row U.
Variable pg : Postgres Row U Cluster.

(** ** Helpers *)

Lemma Update_configuration (c : PostgreCache K V Cluster) (type : UpdateType)
    (last_update now : Z) (stats : UpdateStatisticsScope)
    (scope : ScopeTime Duration) :
  let c' := cache_after (Update policy pg c type last_update now stats scope) in
  clusters_ c' = clusters_ c
  ∧ correction_ c' = correction_ c
  ∧ full_update_timeout_ c' = full_update_timeout_ c
  ∧ incremental_update_timeout_ c' = incremental_update_timeout_ c
  ∧ chunk_size_ c' = chunk_size_ c
  ∧ periodic_updates c' = periodic_updates c.
Proof.
  unfold Update, adapt_cpu_relax.
  destruct (iterate_clusters _ _ _ _ _ _ _ _).2; [done |].
  destruct (_ || _); destruct (0 <? _)%nat; simpl;
    try destruct (over_kCpuRelaxThreshold _ _); done.
Qed.

Lemma Update_finished_thrown (c : PostgreCache K V Cluster)
    (type : UpdateType) (last_update now : Z)
    (stats : UpdateStatisticsScope) (scope : ScopeTime Duration)
    (e : Exception) :
  thrown (Update policy pg c type last_update now stats scope) = Some e →
  finished (stats_scope
    (locals_after (Update policy pg c type last_update now stats scope)))
  = finished stats.
Proof.
  pose proof (iterate_clusters_absorbed policy pg c
    (update_query policy (effective_type policy type))
    (update_timeout c (effective_type policy type)) last_update (clusters_ c)
    (mkLocals (GetDataSnapshot c (effective_type policy type)) stats 0))
    as (_ & Hs & _).
  revert Hs. unfold Update.
  destruct (iterate_clusters _ _ _ _ _ _ _ _).2 eqn:Hthrown; simpl.
  - by intros -> _.
  - intros _. by destruct (_ || _).
Qed.

Lemma handled_length_le (rows : list Row) :
  length (handled policy rows) ≤ length rows.
Proof.
  induction rows as [|p rows IH]; simpl; [done |].
  destruct (parse_row policy p) as [kv|e]; simpl; [lia |].
  destruct (derives_from_std_exception e); simpl; lia.
Qed.

Lemma upsert_size (S0 : gmap K V) (R : list (K * V)) :
  size S0 ≤ size (upsert S0 R) ≤ size S0 + length R.
Proof.
  revert S0. induction R as [|[k v] R IH]; intros S0.
  - rewrite upsert_nil. simpl. lia.
  - rewrite upsert_cons. specialize (IH (<[k := v]> S0)).
    rewrite map_size_insert in IH. simpl.
    destruct (S0 !! k); simpl in IH; lia.
Qed.

Lemma upsert_twice (S0 : gmap K V) (R : list (K * V)) :
  upsert (upsert S0 R) R = upsert S0 R.
Proof.
  unfold upsert. by rewrite (assoc_L (∪)), (idemp_L (∪)).
Qed.

Lemma upsert_Permutation (S0 : gmap K V) (R1 R2 : list (K * V)) :
  R1 ≡ₚ R2 → NoDup R1.*1 → upsert S0 R1 = upsert S0 R2.
Proof.
  intros Hperm Hnodup. unfold upsert. f_equal.
  apply list_to_map_proper.
  - by rewrite fmap_reverse, reverse_Permutation.
  - by rewrite !reverse_Permutation.
Qed.

(** ** When an exception leaves [Update] *)

(** X1. When a cluster call throws, or the decoding of a row throws
    what is no [std::exception], [Update] stops there: the component is
    left exactly as it was (snapshot, [Set] count, relax iterations),
    the statistics scope is not finished although the rows fetched so far
    are counted as read, no statement goes to a later cluster, and the
    exception is the one the last statement ended with, or it is no
    [std::exception] and comes from a row that this statement
    fetched. *)
Theorem Update_throw_publishes_nothing (c : PostgreCache K V Cluster)
    (type : UpdateType) (last_update now : Z)
    (stats : UpdateStatisticsScope) (scope : ScopeTime Duration)
    (e : Exception) :
  let o := Update policy pg c type last_update now stats scope in
  let eff := effective_type policy type in
  thrown o = Some e →
  cache_after o = c
  ∧ finished (stats_scope (locals_after o)) = finished stats
  ∧ documents_read_count (stats_scope (locals_after o))
    = documents_read_count stats + length (fetched_rows (db_calls o))
  ∧ call_cluster <$> db_calls o = take (length (db_calls o)) (clusters_ c)
  ∧ length (db_calls o) ≤ length (clusters_ c)
  ∧ ∃ call, last (db_calls o) = Some call
            ∧ ((cluster_answer policy pg c (update_query policy eff)
                  (update_timeout c eff) (call_cluster call)
                  (call_bound call)).2 = Some e
               ∨ derives_from_std_exception e = false
                 ∧ escaped policy (call_rows call) = Some e).
Proof.
  intros o eff Hthrown. subst o eff.
  destruct (Update_locals policy pg c type last_update now stats scope)
    as (_ & Hread & _).
  destruct (Update_loop policy pg c type last_update now stats scope)
    as [Hcalls Hloop].
  pose proof (iterate_clusters_order policy pg c
    (update_query policy (effective_type policy type))
    (update_timeout c (effective_type policy type)) last_update (clusters_ c)
    (mkLocals (GetDataSnapshot c (effective_type policy type)) stats 0))
    as [Horder _].
  rewrite <- Hcalls in Horder.
  split; [by eapply Update_thrown |].
  split; [by eapply Update_finished_thrown |].
  split; [done |]. split; [done |]. split.
  - apply (f_equal length) in Horder.
    rewrite length_fmap, length_take in Horder. lia.
  - rewrite Hloop in Hthrown. rewrite Hcalls.
    by apply iterate_clusters_thrown.
Qed.

(** ** What [Update] never touches *)

(** X2. [Update] never changes the clusters, the correction, the
    timeouts, the chunk size or the periodic-update flag; it calls [Set]
    at most once, and the published snapshot changes only through that
    call. *)
Theorem Update_keeps_configuration (c : PostgreCache K V Cluster)
    (type : UpdateType) (last_update now : Z)
    (stats : UpdateStatisticsScope) (scope : ScopeTime Duration) :
  let o := Update policy pg c type last_update now stats scope in
  clusters_ (cache_after o) = clusters_ c
  ∧ correction_ (cache_after o) = correction_ c
  ∧ full_update_timeout_ (cache_after o) = full_update_timeout_ c
  ∧ incremental_update_timeout_ (cache_after o) = incremental_update_timeout_ c
  ∧ chunk_size_ (cache_after o) = chunk_size_ c
  ∧ periodic_updates (cache_after o) = periodic_updates c
  ∧ (set_count (cache_after o) = set_count c
     ∧ published (cache_after o) = published c
     ∨ set_count (cache_after o) = S (set_count c)
       ∧ published (cache_after o) = Some (data_cache (locals_after o))).
Proof.
  intros o. subst o. unfold Update, adapt_cpu_relax.
  destruct (iterate_clusters _ _ _ _ _ _ _ _).2.
  { simpl. repeat split; try done. by left. }
  destruct (_ || _); destruct (0 <? _)%nat; simpl;
    try destruct (over_kCpuRelaxThreshold _ _); simpl;
    repeat split; try done; (by left) || (by right).
Qed.

(** ** Full updates forget the past *)

(** X3. A full update does not look at what the component published or
    adapted before: run again on the component it left, with the same
    [last_update] against the same database, it sends the same
    statements, ends the same way and publishes an equal snapshot. *)
Theorem full_update_idempotent (c : PostgreCache K V Cluster)
    (type : UpdateType) (last_update now now' : Z)
    (stats : UpdateStatisticsScope) (scope scope' : ScopeTime Duration) :
  let o1 := Update policy pg c type last_update now stats scope in
  let o2 := Update policy pg (cache_after o1) type last_update now' stats
                   scope' in
  effective_type policy type = kFull →
  db_calls o2 = db_calls o1
  ∧ thrown o2 = thrown o1
  ∧ data_cache (locals_after o2) = data_cache (locals_after o1)
  ∧ stats_scope (locals_after o2) = stats_scope (locals_after o1)
  ∧ (thrown o1 = None →
     published (cache_after o2) = published (cache_after o1)).
Proof.
  intros o1 o2 Hfull. subst o1 o2.
  destruct (Update_configuration c type last_update now stats scope)
    as (_ & Hcorr & Hft & _ & Hchunk & _).
  set (c1 := cache_after (Update policy pg c type last_update now stats scope))
    in *.
  destruct (Update_loop policy pg c type last_update now stats scope)
    as [Hcalls1 Hthrown1].
  destruct (Update_loop policy pg c1 type last_update now' stats scope')
    as [Hcalls2 Hthrown2].
  assert (iterate_clusters policy pg c1 (update_query policy kFull)
            (update_timeout c1 kFull) last_update (clusters_ c1)
            (mkLocals (GetDataSnapshot c1 kFull) stats 0)
          = iterate_clusters policy pg c (update_query policy kFull)
              (update_timeout c kFull) last_update (clusters_ c)
              (mkLocals (GetDataSnapshot c kFull) stats 0)) as Hsame.
  { destruct (Update_configuration c type last_update now stats scope)
      as (Hclusters & _).
    fold c1 in Hclusters. rewrite Hclusters.
    unfold update_timeout. simpl. rewrite Hft.
    by apply iterate_clusters_config. }
  rewrite Hfull in *. rewrite Hsame in Hcalls2, Hthrown2.
  assert (db_calls (Update policy pg c1 type last_update now' stats scope')
          = db_calls (Update policy pg c type last_update now stats scope))
    as Hcalls by congruence.
  destruct (Update_locals policy pg c type last_update now stats scope)
    as (Hdata1 & _).
  destruct (Update_locals policy pg c1 type last_update now' stats scope')
    as (Hdata2 & _).
  rewrite Hfull in Hdata1, Hdata2.
  split; [done |]. split; [congruence |].
  split; [by rewrite Hdata1, Hdata2, Hcalls |].
  split.
  - unfold Update. rewrite Hfull, Hsame. fold c1.
    destruct (iterate_clusters _ _ _ _ _ _ _ _).2; [done |].
    rewrite !orb_true_r. done.
  - intros Hret.
    assert (thrown (Update policy pg c1 type last_update now' stats scope')
            = None) as Hret2 by congruence.
    destruct (Update_published policy pg c type last_update now stats scope
                Hret) as [Hpub1 _].
    destruct (Update_published policy pg c1 type last_update now' stats scope'
                Hret2) as [Hpub2 _].
    rewrite Hfull, orb_true_r in Hpub1, Hpub2.
    fold c1 in Hpub1. rewrite Hpub1, Hpub2. simpl.
    by rewrite Hcalls.
Qed.

(** ** Incremental updates *)

Lemma Update_incremental_published (c : PostgreCache K V Cluster)
    (S0 : gmap K V) (last_update now : Z)
    (stats : UpdateStatisticsScope) (scope : ScopeTime Duration) :
  kIncrementalUpdates (queries policy) = true →
  published c = Some S0 →
  thrown (Update policy pg c kIncremental last_update now stats scope) = None →
  published
    (cache_after (Update policy pg c kIncremental last_update now stats scope))
  = Some (upsert S0 (decoded policy (fetched_rows (db_calls
      (Update policy pg c kIncremental last_update now stats scope))))).
Proof.
  intros Hinc HS Hret.
  destruct (Update_published policy pg c kIncremental last_update now stats
              scope Hret) as [Hpub _].
  assert (effective_type policy kIncremental = kIncremental) as Heff
    by (unfold effective_type; by rewrite Hinc).
  rewrite Heff, GetDataSnapshot_incremental, HS, orb_false_r in Hpub.
  simpl in Hpub. rewrite Hpub.
  destruct (0 <? _)%nat eqn:Hn; [done |].
  apply Nat.ltb_ge, Nat.le_0_r, nil_length_inv in Hn.
  rewrite Hn. simpl. by rewrite upsert_nil.
Qed.

(** X4. The delta query selects with [>=], so rows at the bound come
    again with the next incremental update. That is harmless: an
    incremental update that fetches the rows of the one before it
    publishes (or keeps) a snapshot equal to the one it found. *)
Theorem incremental_update_replay (c : PostgreCache K V Cluster)
    (S0 : gmap K V) (last_update last_update' now now' : Z)
    (stats stats' : UpdateStatisticsScope)
    (scope scope' : ScopeTime Duration) :
  let o1 := Update policy pg c kIncremental last_update now stats scope in
  let o2 := Update policy pg (cache_after o1) kIncremental last_update' now'
                   stats' scope' in
  kIncrementalUpdates (queries policy) = true →
  published c = Some S0 →
  thrown o1 = None →
  thrown o2 = None →
  decoded policy (fetched_rows (db_calls o2))
  = decoded policy (fetched_rows (db_calls o1)) →
  published (cache_after o2) = published (cache_after o1).
Proof.
  intros o1 o2 Hinc HS Hret1 Hret2 Hrows. subst o1 o2.
  pose proof (Update_incremental_published c S0 last_update now stats scope
                Hinc HS Hret1) as Hpub1.
  rewrite (Update_incremental_published _ _ last_update' now' stats' scope'
             Hinc Hpub1 Hret2).
  by rewrite Hrows, upsert_twice.
Qed.

(** X5. The order of the rows of a result set does not matter when the
    rows that decode have distinct keys: a call of [CacheResults] that
    returns leaves the same container and the same statistics for every
    permutation of its rows, and returns for each of them. *)
Theorem CacheResults_order_irrelevant (res1 res2 : list Row)
    (data : gmap K V) (stats : UpdateStatisticsScope) :
  res1 ≡ₚ res2 →
  NoDup (decoded policy res1).*1 →
  (CacheResults policy res1 data stats).2 = None →
  CacheResults policy res1 data stats = CacheResults policy res2 data stats.
Proof.
  intros Hperm Hnodup. rewrite !CacheResults_spec. simpl. intros Hcaught.
  assert (escaped policy res2 = None) as Hcaught2.
  { apply escaped_None. rewrite <- Hperm. by apply escaped_None. }
  rewrite Hcaught, Hcaught2, !handled_caught by done.
  assert (decoded policy res1 ≡ₚ decoded policy res2) as Hdec
    by (by apply omap_Permutation).
  f_equal. f_equal.
  - by apply upsert_Permutation.
  - f_equal.
    pose proof (decoded_or_failed policy res1) as H1.
    pose proof (decoded_or_failed policy res2) as H2.
    apply Permutation_length in Hperm, Hdec. lia.
Qed.

(** ** Chunked and unchunked fetching *)

(** The loop depends on the clusters only through what they answer, as
    long as no row throws past the handler. *)
Lemma iterate_clusters_same_answers (c c' : PostgreCache K V Cluster)
    (query : Query) (timeout last_update : Z)
    (clusters : list ClusterPtr) (loc : Locals K V) :
  correction_ c' = correction_ c →
  (∀ cluster bound,
     cluster_answer policy pg c' query timeout cluster bound
     = cluster_answer policy pg c query timeout cluster bound) →
  escaped policy (fetched_rows
    (iterate_clusters policy pg c query timeout last_update clusters loc).1.2)
  = None →
  (iterate_clusters policy pg c' query timeout last_update clusters loc).1.1
  = (iterate_clusters policy pg c query timeout last_update clusters loc).1.1
  ∧ (iterate_clusters policy pg c' query timeout last_update clusters loc).2
    = (iterate_clusters policy pg c query timeout last_update clusters loc).2
  ∧ fetched_rows
      (iterate_clusters policy pg c' query timeout last_update clusters loc).1.2
    = fetched_rows
        (iterate_clusters policy pg c query timeout last_update clusters loc).1.2.
Proof.
  intros Hcorr Hans. revert loc.
  induction clusters as [|cluster rest IH]; intros loc; [done |].
  destruct (iterate_clusters_cons policy pg c query timeout last_update
              cluster rest loc)
    as (rows & exn & loc1 & Habs & Hcaught & Hescaped & ->).
  destruct (iterate_clusters_cons policy pg c' query timeout last_update
              cluster rest loc)
    as (rows' & exn' & loc1' & Habs' & Hcaught' & _ & ->).
  assert (GetLastUpdated policy c' last_update (data_cache loc)
          = GetLastUpdated policy c last_update (data_cache loc)) as Hbound
    by (unfold GetLastUpdated; by rewrite Hcorr).
  rewrite Hbound, Hans in Hcaught'. clear Hbound.
  intros Hrows.
  assert (escaped policy rows = None) as Hnone.
  { destruct exn; simpl in Hrows.
    - by rewrite fetched_rows_singleton in Hrows.
    - rewrite fetched_rows_cons in Hrows.
      by apply escaped_app_None in Hrows as [? _]. }
  destruct (escaped policy (cluster_answer policy pg c query timeout cluster
    (GetLastUpdated policy c last_update (data_cache loc))).1)
    as [e|] eqn:Hanswer.
  { destruct (Hescaped e eq_refl) as [? _]. congruence. }
  destruct (Hcaught eq_refl) as [-> ->].
  destruct (Hcaught' eq_refl) as [-> ->].
  rewrite (absorbed_caught _ _ _ _ _ Habs Hanswer).
  rewrite (absorbed_caught _ _ _ _ _ Habs' Hanswer).
  rewrite (absorbed_caught _ _ _ _ _ Habs Hanswer) in Hrows.
  destruct (cluster_answer policy pg c query timeout cluster _).2 as [e|];
    simpl in *.
  - by rewrite !fetched_rows_singleton.
  - rewrite fetched_rows_cons in Hrows. simpl in Hrows.
    apply escaped_app_None in Hrows as [_ Hlater].
    destruct (IH _ Hlater) as (IH1 & IH2 & IH3).
    split; [done |]. split; [done |].
    by rewrite !fetched_rows_cons, IH3.
Qed.

(** X6. Fetching through a portal in chunks changes nothing but the
    transport: two components that differ in [chunk_size_] only, and
    whose clusters hand over the same rows and fail alike either way,
    end an update with the same locals and statistics, the same
    exception if any, and the same published snapshot, provided that no
    row that the first fetches throws what is no [std::exception]. *)
Theorem chunking_is_transparent (c c' : PostgreCache K V Cluster)
    (type : UpdateType) (last_update now : Z)
    (stats : UpdateStatisticsScope) (scope : ScopeTime Duration) :
  let o := Update policy pg c type last_update now stats scope in
  let o' := Update policy pg c' type last_update now stats scope in
  clusters_ c' = clusters_ c →
  correction_ c' = correction_ c →
  full_update_timeout_ c' = full_update_timeout_ c →
  incremental_update_timeout_ c' = incremental_update_timeout_ c →
  published c' = published c →
  (∀ query timeout cluster bound,
     cluster_answer policy pg c' query timeout cluster bound
     = cluster_answer policy pg c query timeout cluster bound) →
  escaped policy (fetched_rows (db_calls o)) = None →
  locals_after o' = locals_after o
  ∧ thrown o' = thrown o
  ∧ fetched_rows (db_calls o') = fetched_rows (db_calls o)
  ∧ published (cache_after o') = published (cache_after o).
Proof.
  intros o o' Hclusters Hcorr Hft Hit Hpub Hans Hcaught. subst o o'.
  assert (update_timeout c' (effective_type policy type)
          = update_timeout c (effective_type policy type)) as Htimeout
    by (unfold update_timeout; by rewrite Hft, Hit).
  assert (GetDataSnapshot c' (effective_type policy type)
          = GetDataSnapshot c (effective_type policy type)) as Hstart
    by (unfold GetDataSnapshot; by rewrite Hpub).
  destruct (Update_loop policy pg c type last_update now stats scope)
    as [Hcalls _].
  rewrite Hcalls in Hcaught. clear Hcalls.
  destruct (iterate_clusters_same_answers c c'
    (update_query policy (effective_type policy type))
    (update_timeout c (effective_type policy type)) last_update (clusters_ c)
    (mkLocals (GetDataSnapshot c (effective_type policy type)) stats 0)
    Hcorr (Hans _ _) Hcaught) as (Hloc & Hthrown & Hrows).
  pose proof (adapt_cpu_relax_others c scope) as Hc.
  pose proof (adapt_cpu_relax_others c' scope) as Hc'.
  unfold Update. rewrite Hclusters, Htimeout, Hstart, Hloc, Hthrown.
  destruct (iterate_clusters _ _ c _ _ _ _ _).2; simpl.
  { repeat split; done. }
  destruct (_ || _); simpl; repeat split; try done.
  destruct (Hc (changes (iterate_clusters policy pg c
    (update_query policy (effective_type policy type))
    (update_timeout c (effective_type policy type)) last_update (clusters_ c)
    (mkLocals (GetDataSnapshot c (effective_type policy type)) stats 0)).1.1))
    as [-> _].
  destruct (Hc' (changes (iterate_clusters policy pg c
    (update_query policy (effective_type policy type))
    (update_timeout c (effective_type policy type)) last_update (clusters_ c)
    (mkLocals (GetDataSnapshot c (effective_type policy type)) stats 0)).1.1))
    as [-> _].
  done.
Qed.

(** X7. An incremental update of a component that has published nothing
    yet starts from an empty container. If it fetches no row it leaves
    the component without a snapshot and reports no changes; otherwise it
    publishes the rows it decoded. *)
Theorem cold_incremental_update (c : PostgreCache K V Cluster)
    (last_update now : Z) (stats : UpdateStatisticsScope)
    (scope : ScopeTime Duration) :
  let o := Update policy pg c kIncremental last_update now stats scope in
  let rows := fetched_rows (db_calls o) in
  kIncrementalUpdates (queries policy) = true →
  published c = None →
  thrown o = None →
  (rows = [] →
   published (cache_after o) = None
   ∧ set_count (cache_after o) = set_count c
   ∧ finished (stats_scope (locals_after o)) = FinishNoChanges)
  ∧ (rows ≠ [] →
     published (cache_after o) = Some (upsert ∅ (decoded policy rows))
     ∧ dom (upsert ∅ (decoded policy rows)) = keys (decoded policy rows)
     ∧ finished (stats_scope (locals_after o))
       = Finish (size (upsert ∅ (decoded policy rows)))).
Proof.
  intros o rows Hinc Hcold Hret. subst o rows.
  destruct (Update_returned policy pg c kIncremental last_update now stats
              scope Hret) as [Hcache Hfin].
  pose proof (adapt_cpu_relax_others c scope
    (length (fetched_rows (db_calls
       (Update policy pg c kIncremental last_update now stats scope)))))
    as [Hpub Hset].
  assert (effective_type policy kIncremental = kIncremental) as Heff
    by (unfold effective_type; by rewrite Hinc).
  rewrite Heff, GetDataSnapshot_incremental, Hcold, orb_false_r in Hcache, Hfin.
  simpl in Hcache, Hfin. rewrite Hcache, Hfin. clear Hcache Hfin.
  destruct (fetched_rows _) as [|p rows]; simpl in *.
  - split; [intros _ | done]. by rewrite Hpub, Hset, Hcold.
  - split; [done | intros _].
    split; [done |]. split; [|done].
    rewrite upsert_dom, dom_empty_L. by rewrite (left_id_L ∅ (∪)).
Qed.

(** ** Sizes and counters *)

(** X8. Whatever an update fetches, its working container has at least
    the entries it started with and at most one more per row that
    decoded: its size plus the number of parse failures never exceeds the
    starting size plus the number of rows read, and the parse failures of
    a run never exceed its rows read. *)
Theorem working_size_bounds (c : PostgreCache K V Cluster)
    (type : UpdateType) (last_update now : Z)
    (stats : UpdateStatisticsScope) (scope : ScopeTime Duration) :
  let o := Update policy pg c type last_update now stats scope in
  let start := GetDataSnapshot c (effective_type policy type) in
  let after := stats_scope (locals_after o) in
  size start ≤ size (data_cache (locals_after o))
  ∧ size (data_cache (locals_after o)) + documents_parse_failures after
      + documents_read_count stats
    ≤ size start + documents_read_count after + documents_parse_failures stats
  ∧ documents_parse_failures after + documents_read_count stats
    ≤ documents_read_count after + documents_parse_failures stats.
Proof.
  intros o start after. subst o start after.
  destruct (Update_locals policy pg c type last_update now stats scope)
    as (Hdata & Hread & Hfail & _).
  rewrite Hdata, Hread, Hfail.
  pose proof (decoded_or_failed policy (handled policy (fetched_rows (db_calls
    (Update policy pg c type last_update now stats scope))))) as Hlen.
  pose proof (handled_length_le (fetched_rows (db_calls
    (Update policy pg c type last_update now stats scope)))) as Hle.
  pose proof (upsert_size (GetDataSnapshot c (effective_type policy type))
    (decoded policy (handled policy (fetched_rows (db_calls
       (Update policy pg c type last_update now stats scope)))))) as Hsize.
  lia.
Qed.

(** ** The relax iterations *)

(** X9. [cpu_relax_iterations_] is kept as it is by an update that throws,
    by one that fetches no row, and by one whose parse phase stays within
    [kCpuRelaxThreshold]: a value once adapted lasts until an update with
    rows and a long parse phase replaces it. *)
Theorem cpu_relax_iterations_kept (c : PostgreCache K V Cluster)
    (type : UpdateType) (last_update now : Z)
    (stats : UpdateStatisticsScope) (scope : ScopeTime Duration) :
  let o := Update policy pg c type last_update now stats scope in
  thrown o ≠ None
  ∨ fetched_rows (db_calls o) = []
  ∨ over_kCpuRelaxThreshold scope (ElapsedTotal_parse scope) = false →
  cpu_relax_iterations_ (cache_after o) = cpu_relax_iterations_ c.
Proof.
  intros o Hcase. subst o.
  destruct (thrown (Update policy pg c type last_update now stats scope))
    as [e|] eqn:Hthrown.
  { by rewrite (Update_thrown policy pg c type last_update now stats scope e). }
  destruct (Update_returned policy pg c type last_update now stats scope
              Hthrown) as [Hcache _].
  assert (cpu_relax_iterations_
            (cache_after (Update policy pg c type last_update now stats scope))
          = cpu_relax_iterations_ (adapt_cpu_relax scope
              (length (fetched_rows (db_calls
                 (Update policy pg c type last_update now stats scope)))) c))
    as -> by (rewrite Hcache; by destruct (_ || _)).
  rewrite adapt_cpu_relax_iterations.
  destruct Hcase as [?|[Hrows| ->]]; [done | |].
  - by rewrite Hrows.
  - by rewrite andb_false_r.
Qed.

(** ** What a statement carries *)

(** X10. All statements of one update carry the same query and command
    control: the full query with the full-update timeout when the kind is
    full, the delta query with the incremental-update timeout otherwise;
    the statement timeout is always off, the host flags are the policy's,
    every statement goes to a cluster of the component, and all go
    through a portal or none does. *)
Theorem statements_of_one_update (c : PostgreCache K V Cluster)
    (type : UpdateType) (last_update now : Z)
    (stats : UpdateStatisticsScope) (scope : ScopeTime Duration)
    (call : DbCall Row U Cluster) :
  let o := Update policy pg c type last_update now stats scope in
  let full := bool_decide (effective_type policy type = kFull) in
  call ∈ db_calls o →
  call_query call
  = (if full then GetAllQuery (queries policy)
     else GetDeltaQuery (queries policy))
  ∧ network_timeout (call_control call)
    = (if full then full_update_timeout_ c else incremental_update_timeout_ c)
  ∧ statement_timeout (call_control call) = kStatementTimeoutOff
  ∧ call_flags call = kClusterHostTypeFlags policy
  ∧ call_chunked call = (0 <? chunk_size_ c)%nat
  ∧ call_cluster call ∈ clusters_ c.
Proof.
  intros o full Hcall. subst o full.
  destruct (Update_loop policy pg c type last_update now stats scope)
    as [Hcalls _].
  rewrite Hcalls in Hcall.
  pose proof (iterate_clusters_order policy pg c
    (update_query policy (effective_type policy type))
    (update_timeout c (effective_type policy type)) last_update (clusters_ c)
    (mkLocals (GetDataSnapshot c (effective_type policy type)) stats 0))
    as [Horder _].
  pose proof Hcall as Hin.
  apply iterate_clusters_calls in Hcall as (Hq & Hc & Hf & Hch).
  rewrite Hq, Hc, Hf, Hch. unfold update_query, update_timeout. simpl.
  repeat split; try done.
  apply (list_elem_of_fmap_2 call_cluster) in Hin.
  rewrite Horder in Hin.
  by apply subseteq_take in Hin.
Qed.

(** ** Constructed components *)

(** X11. Take a base class whose [StartPeriodicUpdates] leaves the
    clusters, the chunk size and the timeouts of the component as the
    constructor set them. Then every statement of an update that
    returns on a constructed component goes to the cluster of its
    shard: the [i]-th statement to what [GetClusterForShard(i)] of the
    configured PostgreSQL component returned, one per shard, through a
    portal exactly when [chunk-size] is set and positive, with the
    configured timeout of its kind or the default of one minute (full)
    or one second (incremental). *)
Theorem constructed_component_asks_every_shard
    (base : BaseType K V Cluster) (config : ComponentConfig)
    (context : ComponentContext Cluster) (c : PostgreCache K V Cluster)
    (type : UpdateType) (last_update now : Z)
    (stats : UpdateStatisticsScope) (scope : ScopeTime Duration) :
  let o := Update policy pg c type last_update now stats scope in
  let eff := effective_type policy type in
  PostgreCache_ctor policy base config context = Returns c →
  (∀ built started,
     StartPeriodicUpdates base built = Returns started →
     clusters_ started = clusters_ built
     ∧ chunk_size_ started = chunk_size_ built
     ∧ full_update_timeout_ started = full_update_timeout_ built
     ∧ incremental_update_timeout_ started
       = incremental_update_timeout_ built) →
  thrown o = None →
  ∃ pgc,
    FindComponent context (default EmptyString (pgcomponent config))
    = Returns pgc
    ∧ length (db_calls o) = GetShardCount pgc
    ∧ (∀ i, i < GetShardCount pgc → is_Some (db_calls o !! i))
    ∧ (∀ i call, db_calls o !! i = Some call →
         GetClusterForShard pgc i = Returns (call_cluster call)
         ∧ call_chunked call = (0 <? default 0 (chunk_size config))%nat
         ∧ network_timeout (call_control call)
           = (if bool_decide (eff = kFull)
              then default 60000%Z (full_update_op_timeout config)
              else default 1000%Z (incremental_update_op_timeout config))).
Proof.
  intros o eff Hctor Hbase Hret. subst o eff.
  apply ctor_returns in Hctor
    as (pgc & clusters & Hfind & Hlen & Hget & _ & Hstart).
  apply Hbase in Hstart as (Hclusters & Hchunk & Hfull & Hinc).
  simpl in Hclusters, Hchunk, Hfull, Hinc.
  destruct (Update_loop policy pg c type last_update now stats scope)
    as [Hcalls Hthrown].
  rewrite Hthrown in Hret. rewrite Hcalls. clear Hcalls Hthrown.
  pose proof (iterate_clusters_order policy pg c
    (update_query policy (effective_type policy type))
    (update_timeout c (effective_type policy type)) last_update (clusters_ c)
    (mkLocals (GetDataSnapshot c (effective_type policy type)) stats 0))
    as [Horder Hall].
  specialize (Hall Hret).
  exists pgc. split; [done |].
  split; [by rewrite Hall, Hclusters |]. split.
  - intros i Hi. apply lookup_lt_is_Some. rewrite Hall, Hclusters. lia.
  - intros i call Hcall.
    pose proof (iterate_clusters_calls policy pg c _ _ _ _ _ call
      (list_elem_of_lookup_2 _ _ _ Hcall)) as (_ & Hcc & _ & Hch).
    rewrite Hcc, Hch. split; [|split].
    + assert ((call_cluster <$> (iterate_clusters policy pg c
        (update_query policy (effective_type policy type))
        (update_timeout c (effective_type policy type)) last_update
        (clusters_ c)
        (mkLocals (GetDataSnapshot c (effective_type policy type))
                  stats 0)).1.2) !! i = Some (call_cluster call)) as Hi
        by (by rewrite list_lookup_fmap, Hcall).
      rewrite Horder, Hclusters in Hi.
      apply lookup_take_Some in Hi as [Hi Hlt].
      apply lookup_lt_Some in Hi as Hbound. rewrite Hlen in Hbound.
      destruct (Hget i Hbound) as (cluster & Hcluster & Hith).
      congruence.
    + by rewrite Hchunk.
    + unfold update_timeout. simpl. rewrite Hfull, Hinc. done.
Qed.

(** X12. Take a base class whose [StartPeriodicUpdates] leaves the
    correction of the component as the constructor set it. Then a
    constructed component never has a negative correction: it is the
    configured [update-correction] converted to the 64-bit tick count of
    the clock, zero when the key is absent, and for corrections of up
    to 9223372036854 ms the configured value in ticks. So for a policy
    without [GetLastKnownUpdated] the bound of the delta query is
    [last_update] moved back by the correction, which, as long as the
    difference is a time point of the clock, is never later than
    [last_update], and [last_update] itself without a configured
    correction. *)
Theorem constructed_correction_not_forward
    (base : BaseType K V Cluster) (config : ComponentConfig)
    (context : ComponentContext Cluster) (c : PostgreCache K V Cluster)
    (last_update : Z) (cache : gmap K V) :
  PostgreCache_ctor policy base config context = Returns c →
  (∀ built started,
     StartPeriodicUpdates base built = Returns started →
     correction_ started = correction_ built) →
  (0 ≤ correction_ c < 2 ^ 63)%Z
  ∧ correction_ c
    = int64_wrap (default 0 (update_correction config)
                  * system_clock_ticks_per_milli)%Z
  ∧ ((0 ≤ default 0 (update_correction config) ≤ 9223372036854)%Z →
     correction_ c
     = (default 0 (update_correction config)
        * system_clock_ticks_per_milli)%Z)
  ∧ (GetLastKnownUpdated policy = None →
     GetLastUpdated policy c last_update cache
     = UpdatedFieldType_of policy (last_update - correction_ c)%Z
     ∧ ((- 2 ^ 63 ≤ last_update < 2 ^ 63)%Z →
        (- 2 ^ 63 ≤ last_update - correction_ c)%Z →
        int64_wrap (last_update - correction_ c)
        = (last_update - correction_ c)%Z
        ∧ (int64_wrap (last_update - correction_ c) ≤ last_update)%Z)
     ∧ (update_correction config = None →
        GetLastUpdated policy c last_update cache
        = UpdatedFieldType_of policy last_update)).
Proof.
  intros Hctor Hbase.
  apply ctor_returns in Hctor
    as (pgc & clusters & _ & _ & _ & Hpos & Hstart).
  apply Hbase in Hstart. simpl in Hstart.
  pose proof (int64_wrap_range (default 0 (update_correction config)
                                * system_clock_ticks_per_milli)%Z) as Hrange.
  rewrite Hstart.
  split; [lia |]. split; [done |]. split.
  { intros Hms. apply correction_ticks_small. lia. }
  intros Hcustom. unfold GetLastUpdated. rewrite Hcustom, Hstart.
  split; [done |]. split.
  - intros Hlast Hlow. rewrite int64_wrap_small by lia. lia.
  - intros ->. simpl.
    change (int64_wrap (0 * system_clock_ticks_per_milli)) with 0%Z.
    by rewrite Z.sub_0_r.
Qed.

End Behaviour.

(** ** The static assertions *)

Lemma static_assert_nil (condition : bool) (message : string) :
  static_assert condition message = [] ↔ condition = true.
Proof. unfold static_assert. by destruct condition. Qed.

(** X13. A policy that passes all static assertions has a non-empty
    name, a value type with a usable key member, exactly one of [kQuery]
    and [GetQuery()], which [PolicyChecker::GetQuery] returns, a declared
    [kUpdatedField] and a host type with a role; and if it wants
    incremental updates it declares [UpdatedFieldType], as one of the two
    time point types unless it has [GetLastKnownUpdated]. *)
Theorem PolicyChecker_accepts (kSlave mask : ClusterHostTypeFlags)
    (t : PolicyTraits) :
  PolicyChecker kSlave mask t = [] →
  (∃ name, t_kName t = Some name ∧ name ≠ EmptyString)
  ∧ t_ValueType t = true
  ∧ t_kKeyMember t = true
  ∧ (∃ query, PolicyChecker_GetQuery t = Some query
              ∧ (t_kQuery t = Some query ∧ t_GetQuery t = None
                 ∨ t_kQuery t = None ∧ t_GetQuery t = Some query))
  ∧ is_Some (t_kUpdatedField t)
  ∧ N.land (ClusterHostType kSlave t) mask ≠ 0%N
  ∧ (kWantIncrementalUpdates t = true →
     ∃ type, t_UpdatedFieldType t = Some type
             ∧ (type = TimePointTz ∨ type = TimePoint
                ∨ t_GetLastKnownUpdated t = true)).
Proof.
  unfold PolicyChecker. intros Hnone.
  repeat (apply app_eq_nil in Hnone as [?%static_assert_nil Hnone]).
  apply app_eq_nil in Hnone as [Hfield Hhost%static_assert_nil].
  unfold kHasName, kHasValueType, kHasKeyMember, kHasQuery, kHasGetQuery,
    kHasUpdatedField in *.
  repeat match goal with
         | Hb : _ && _ = true |- _ => apply andb_true_iff in Hb as [? ?]
         | Hb : bool_decide _ = true |- _ => apply bool_decide_eq_true in Hb
         end.
  split; [|split; [done |]; split; [done |]; split; [|split; [done |]; split]].
  - destruct (t_kName t) as [name|]; [|done]. exists name. split; [done |].
    intros ->. done.
  - unfold PolicyChecker_GetQuery.
    destruct (t_kQuery t) as [q1|], (t_GetQuery t) as [q2|]; simpl in *;
      try done; eauto.
  - apply negb_true_iff, N.eqb_neq in Hhost. done.
  - intros Hwant. unfold CheckUpdatedFieldType in Hfield.
    destruct (t_UpdatedFieldType t) as [type|].
    + exists type. split; [done |].
      apply static_assert_nil in Hfield.
      apply orb_true_iff in Hfield as [Hfield|Hfield]; [|by right; right].
      apply orb_true_iff in Hfield as [Hfield|Hfield];
        apply bool_decide_eq_true in Hfield; [by left | by right; left].
    + apply static_assert_nil in Hfield. by rewrite Hwant in Hfield.
Qed.

(** X14. The check of [UpdatedFieldType] does not look at whether the
    policy wants incremental updates: a policy that declares a field type
    other than the two time point types and has no [GetLastKnownUpdated]
    is rejected even if its [kUpdatedField] is null or empty; and a
    policy without value type is told so twice, for [ValueType] and for
    [kKeyMember]. *)
Theorem PolicyChecker_rejects (kSlave mask : ClusterHostTypeFlags)
    (t : PolicyTraits) :
  (t_UpdatedFieldType t = Some OtherFieldType →
   t_GetLastKnownUpdated t = false →
   "Invalid UpdatedFieldType, must be either TimePointTz or TimePoint"
   ∈ PolicyChecker kSlave mask t)
  ∧ (t_ValueType t = false →
     "The PosgreSQL cache policy must define a type alias `ValueType`"
     ∈ PolicyChecker kSlave mask t
     ∧ ("The PostgreSQL cache policy must contain a static member `kKeyMember` "
        +:+ "with a pointer to a data or a function member with the object's key")
       ∈ PolicyChecker kSlave mask t).
Proof.
  unfold PolicyChecker. split.
  - intros Htype Hcustom.
    do 6 (apply elem_of_app; right). apply elem_of_app; left.
    unfold CheckUpdatedFieldType, kHasCustomUpdated.
    rewrite Htype, Hcustom. simpl. apply list_elem_of_singleton. done.
  - intros Hvalue. split.
    + apply elem_of_app; right. apply elem_of_app; left.
      unfold kHasValueType. rewrite Hvalue. by apply list_elem_of_singleton.
    + do 2 (apply elem_of_app; right). apply elem_of_app; left.
      unfold kHasKeyMember. rewrite Hvalue. by apply list_elem_of_singleton.
Qed.

(** ** The two queries *)

Lemma length_append (s1 s2 : string) :
  String.length (s1 +:+ s2) = String.length s1 + String.length s2.
Proof.
  induction s1 as [|a s1 IH]; [done |].
  change (S (String.length (s1 +:+ s2))
          = S (String.length s1 + String.length s2)).
  by rewrite IH.
Qed.

(** X15. The full and the delta query of a policy carry the same name,
    the one of the policy's query. With incremental updates enabled the
    delta statement is longer than the full statement by the length of
    the update field plus 13 characters, with or without a [kWhere]
    fragment, so the two statements differ; with incremental updates
    disabled they have the same length. *)
Theorem delta_query_differs (p : QueryPolicy) :
  GetName (GetAllQuery p) = GetName (GetQuery p)
  ∧ GetName (GetDeltaQuery p) = GetName (GetQuery p)
  ∧ String.length (Statement (GetDeltaQuery p))
    = String.length (Statement (GetAllQuery p))
      + (if kIncrementalUpdates p
         then String.length (default EmptyString (kUpdatedField p)) + 13
         else 0)
  ∧ (kIncrementalUpdates p = true →
     Statement (GetDeltaQuery p) ≠ Statement (GetAllQuery p)).
Proof.
  assert (String.length (Statement (GetDeltaQuery p))
    = String.length (Statement (GetAllQuery p))
      + (if kIncrementalUpdates p
         then String.length (default EmptyString (kUpdatedField p)) + 13
         else 0)) as Hlen.
  { destruct p as [[Q name] [W|] [U|]];
      unfold GetDeltaQuery, GetAllQuery, kIncrementalUpdates; simpl;
      try destruct (String.eqb U EmptyString); simpl;
      repeat (rewrite length_append; simpl); lia. }
  split; [|split; [|split; [done |]]].
  - unfold GetAllQuery. by destruct (kWhere p).
  - unfold GetDeltaQuery, GetAllQuery.
    destruct (kUpdatedField p) as [U|], (kWhere p);
      try destruct (negb _); done.
  - intros Hinc Heq. rewrite Heq, Hinc in Hlen. lia.
Qed.

(** * The sample cache at work *)

Module Witnesses.
Import Example.

(** Incremental upsert: the delta replaces the value of key 1, brings
    keys 2 and 3, and contains one row without id; key 9 stays. *)
Example incremental_run :
  let o := Update incremental_policy db (cache_with 2 0 (Some prior))
                  kIncremental 5 100 no_stats (scope_of 3) in
  published (cache_after o)
  = Some {[ 1 := (1, "a"); 2 := (2, "b"); 3 := (3, "c"); 9 := (9, "z") ]}
  ∧ stats_scope (locals_after o) = mkStats 4 1 (Finish 4)
  ∧ thrown o = None.
Proof. vm_compute. done. Qed.

(** Cold start with a policy without update field: the kind is coerced
    to full; of the three rows of the shard the second cannot be decoded. *)
Example cold_full_load :
  let o := Update full_only_policy db (cache_with 1 0 None)
                  kIncremental 0 100 no_stats (scope_of 3) in
  published (cache_after o) = Some {[ 1 := (1, "a"); 3 := (3, "c") ]}
  ∧ stats_scope (locals_after o) = mkStats 3 1 (Finish 2)
  ∧ call_query <$> db_calls o
    = [mkQuery "SELECT id, name, updated FROM t where name <> ''"
               (Some "sample")].
Proof. vm_compute. done. Qed.

(** Incremental no-op: nothing at or above the bound. *)
Example incremental_noop :
  let o := Update incremental_policy db (cache_with 2 0 (Some prior))
                  kIncremental 50 100 no_stats (scope_of 3) in
  published (cache_after o) = Some prior
  ∧ set_count (cache_after o) = 0
  ∧ stats_scope (locals_after o) = mkStats 0 0 FinishNoChanges.
Proof. vm_compute. done. Qed.

(** Chunked fetch of shard 0 with [chunk-size = 2]: two rows, then one. *)
Example chunked_portal :
  Portal db (Some 0) 4%N (mkCommandControl 60000 0)
         (GetAllQuery (queries full_only_policy)) 0%Z 2
  = Fetch [(Some 1, "a", 5%Z); (None, "x", 6%Z)]
          (Fetch [(Some 3, "c", 20%Z)] Commit).
Proof. reflexivity. Qed.

(** A cluster that refuses the connection: nothing is published. *)
Example transport_error :
  let o := Update incremental_policy db (cache_with 3 2 (Some prior))
                  kFull 6 100 no_stats (scope_of 3) in
  thrown o = Some (runtime_error "connection refused")
  ∧ cache_after o = cache_with 3 2 (Some prior).
Proof. vm_compute. done. Qed.

(** A conversion that throws what is no [std::exception], fetched in
    chunks of two: the second chunk is never fetched. *)
Example chunked_abort :
  let o := Update throwing_policy db (cache_with 2 2 (Some prior))
                  kFull 6 100 no_stats (scope_of 3) in
  thrown o = Some (not_std_exception "id is null")
  ∧ fetched_rows (db_calls o) = [(Some 1, "a", 5%Z); (None, "x", 6%Z)]
  ∧ stats_scope (locals_after o) = mkStats 2 0 NotFinished
  ∧ changes (locals_after o) = 0.
Proof. vm_compute. done. Qed.

(** With a row that throws what is no [std::exception], the order of
    the rows decides what is cached before [CacheResults] is left. *)
Example order_matters_when_aborted :
  (CacheResults throwing_policy [(Some 1, "a", 5%Z); (None, "x", 6%Z)]
                ∅ no_stats).1.1
  = {[ 1 := (1, "a") ]}
  ∧ (CacheResults throwing_policy [(None, "x", 6%Z); (Some 1, "a", 5%Z)]
                  ∅ no_stats).1.1
    = ∅.
Proof. vm_compute. done. Qed.

(** A correction of 18446744073710 ms passes the sign test: its tick
    count wraps to 448384 ns, which becomes the correction. *)
Example large_correction_wraps :
  PostgreCache_ctor incremental_policy (sample_base kOtherUpdateTypes)
    (mkConfig "sample-cache" (Some 18446744073710%Z) None None None
              (Some "pg"))
    (context 1)
  = Returns (mkCache None 0 true [Some 0] 448384 60000 1000 0 0).
Proof. reflexivity. Qed.

Lemma Update_publishes_iff_witness :
  let o := Update full_only_policy db (cache_with 2 0 None)
                  kIncremental 100 100 no_stats (scope_of 3) in
  thrown o = None ∧ changes (locals_after o) = 4.
Proof.
  split; [reflexivity |].
  exact (proj1 (Update_publishes_iff full_only_policy db (cache_with 2 0 None)
                  kIncremental 100 100 no_stats (scope_of 3) eq_refl)).
Defined.

Lemma incremental_update_upserts_witness :
  let c := cache_with 2 0 (Some prior) in
  let o := Update incremental_policy db c kIncremental 6 100 no_stats
                  (scope_of 3) in
  let Rs := [[(None, "x", 6%Z); (Some 3, "c", 20%Z)]; [(Some 2, "b", 7%Z)]] in
  kIncrementalUpdates (queries incremental_policy) = true
  ∧ published c = Some prior
  ∧ result_sets incremental_policy db c
                (GetDeltaQuery (queries incremental_policy))
                (incremental_update_timeout_ c) 6 (clusters_ c) prior
    = Some Rs
  ∧ escaped incremental_policy (concat Rs) = None
  ∧ thrown o = None
  ∧ call_cluster <$> db_calls o = [Some 0; Some 1]
  ∧ call_rows <$> db_calls o = Rs
  ∧ published (cache_after o)
    = Some {[ 1 := (1, "old"); 2 := (2, "b"); 3 := (3, "c"); 9 := (9, "z") ]}.
Proof.
  intros c o Rs. subst o.
  destruct (incremental_update_upserts incremental_policy db c prior 6 100
              no_stats (scope_of 3) Rs eq_refl eq_refl eq_refl eq_refl)
    as (Hret & Hclusters & Hrows & Hpub & _).
  do 4 (split; [reflexivity |]).
  split; [exact Hret |]. split; [exact Hclusters |]. split; [exact Hrows |].
  rewrite Hpub. vm_compute. reflexivity.
Defined.

Lemma full_update_key_set_witness :
  let c := cache_with 2 0 (Some prior) in
  let o := Update incremental_policy db c kFull 6 100 no_stats (scope_of 3) in
  let Rs := [shard0; shard1] in
  effective_type incremental_policy kFull = kFull
  ∧ result_sets incremental_policy db c
                (GetAllQuery (queries incremental_policy))
                (full_update_timeout_ c) 6 (clusters_ c) ∅
    = Some Rs
  ∧ escaped incremental_policy (concat Rs) = None
  ∧ thrown o = None
  ∧ call_rows <$> db_calls o = Rs
  ∧ published (cache_after o)
    = Some {[ 1 := (1, "a"); 2 := (2, "b"); 3 := (3, "c") ]}
  ∧ keys (decoded incremental_policy (concat Rs)) = {[ 1; 2; 3 ]}.
Proof.
  intros c o Rs. subst o.
  destruct (full_update_key_set incremental_policy db c kFull 6 100
              no_stats (scope_of 3) Rs eq_refl eq_refl eq_refl)
    as (_ & _ & _ & Hret & _ & Hrows & Hpub & _ & Hdom).
  do 3 (split; [reflexivity |]).
  split; [exact Hret |]. split; [exact Hrows |].
  split; [rewrite Hpub; vm_compute; reflexivity |].
  rewrite <- Hdom. vm_compute. reflexivity.
Defined.

Lemma no_update_field_forces_full_witness :
  let c := cache_with 2 0 (Some prior) in
  let o := Update full_only_policy db c kIncremental 50 100 no_stats
                  (scope_of 3) in
  let full_query :=
    mkQuery "SELECT id, name, updated FROM t where name <> ''"
            (Some "sample") in
  kIncrementalUpdates (queries full_only_policy) = false
  ∧ effective_type full_only_policy kIncremental = kFull
  ∧ (∃ call calls,
       db_calls o = call :: calls
       ∧ call_cluster call = Some 0
       ∧ call_query call = full_query
       ∧ call_control call = mkCommandControl 60000 0)
  ∧ call_rows <$> db_calls o = [shard0; shard1]
  ∧ published (cache_after o)
    = Some {[ 1 := (1, "a"); 2 := (2, "b"); 3 := (3, "c") ]}.
Proof.
  intros c o full_query. subst o full_query.
  destruct (no_update_field_forces_full full_only_policy db c kIncremental 50
              100 no_stats (scope_of 3) eq_refl)
    as (Heff & _ & _ & Hfirst & Hall).
  destruct (Hfirst (Some 0) [Some 1] eq_refl)
    as (call & calls & Hcalls & Hcluster & Hquery & Hcontrol & _).
  destruct (Hall [shard0; shard1] eq_refl eq_refl)
    as (_ & _ & Hrows & Hpub & _).
  split; [reflexivity |]. split; [exact Heff |].
  split; [exists call, calls; done |]. split; [exact Hrows |].
  rewrite Hpub. vm_compute. reflexivity.
Defined.




Lemma changes_count_fetched_rows_witness :
  let c := cache_on [Some 0; Some 3] 0 (Some prior) in
  let o := Update incremental_policy db c kIncremental 30 100 no_stats
                  (scope_of 3) in
  let Rs := [[]; shard3] in
  result_sets incremental_policy db c
              (GetDeltaQuery (queries incremental_policy))
              (incremental_update_timeout_ c) 30 (clusters_ c) prior
  = Some Rs
  ∧ escaped incremental_policy (concat Rs) = None
  ∧ decoded incremental_policy (concat Rs) = []
  ∧ call_rows <$> db_calls o = Rs
  ∧ changes (locals_after o) = 2
  ∧ documents_parse_failures (stats_scope (locals_after o)) = 2
  ∧ set_count (cache_after o) = 1
  ∧ published (cache_after o) = Some prior.
Proof.
  intros c o Rs. subst o.
  destruct (changes_count_fetched_rows incremental_policy db c kIncremental
              30 100 no_stats (scope_of 3) Rs eq_refl eq_refl)
    as (_ & Hrows & Hchanges & _ & Hfail & _ & Hset & _).
  destruct Hset as (Hset & _ & Hpub).
  { simpl. lia. }
  { repeat constructor; eexists; reflexivity. }
  do 3 (split; [reflexivity |]).
  split; [exact Hrows |]. split; [exact Hchanges |].
  split; [exact Hfail |]. split; [exact Hset |].
  exact (Hpub prior eq_refl eq_refl).
Defined.

Lemma relax_iterations_adapted_witness :
  let c := cache_on [Some 4] 0 None in
  let o := Update incremental_policy db c kFull 0 100 no_stats (scope_of 16) in
  result_sets incremental_policy db c
              (GetAllQuery (queries incremental_policy))
              (full_update_timeout_ c) 0 (clusters_ c) ∅
  = Some [shard4]
  ∧ escaped incremental_policy (concat [shard4]) = None
  ∧ changes (locals_after o) = 20
  ∧ cpu_relax_iterations_ (cache_after o) = 2.
Proof.
  intros c o. subst o.
  destruct (relax_iterations_adapted incremental_policy db c kFull 0 100
              no_stats (scope_of 16) [shard4] eq_refl eq_refl)
    as (_ & Hchanges & Hadapted & _).
  destruct Hadapted as [Hcount _].
  { simpl. lia. }
  { reflexivity. }
  do 2 (split; [reflexivity |]). split; [exact Hchanges |].
  rewrite Hcount. reflexivity.
Defined.

(** Twenty rows after a parse phase of 13.333333333333334 ms: the
    parse phase in units of 2 ms is the double 7505999378950827 / 2^50,
    a little more than 20/3, so that the quotient of 20 by it is a
    little less than 3 and its floor is 2; the double-precision division
    rounds the quotient to 3. *)
Lemma relax_quotient_not_floor :
  let scope := scope_elapsed third_of_forty in
  let elapsed := ElapsedTotal_parse scope in
  let ratio := duration_ratio scope elapsed (kCpuRelaxInterval scope) in
  let o := Update incremental_policy db (cache_on [Some 4] 0 None)
                  kFull 0 100 no_stats scope in
  thrown o = None
  ∧ changes (locals_after o) = 20
  ∧ over_kCpuRelaxThreshold scope elapsed = true
  ∧ FloatOps.Prim2SF ratio
    = SpecFloat.S754_finite false 7505999378950827 (-50)
  ∧ (2 * 7505999378950827 ≤ 20 * 2 ^ 50 < 3 * 7505999378950827)%Z
  ∧ floor_of_exact_quotient 20 ratio = Some 2%Z
  ∧ cpu_relax_iterations_ (cache_after o) = 3.
Proof. vm_compute. repeat split; congruence. Qed.



End Witnesses.

Module BehaviourWitnesses.
Import Example.

(** The portals of the sample database hand over all selected rows. *)
Lemma portal_of_rows (fuel chunk : nat) (rows : list Row) :
  0 < chunk → length rows < fuel →
  portal_rows (portal_of fuel chunk rows) = rows
  ∧ portal_thrown (portal_of fuel chunk rows) = None.
Proof.
  intros Hchunk. revert rows.
  induction fuel as [|fuel IH]; intros rows Hfuel; [lia |]. simpl.
  destruct (Nat.ltb_spec (length (take chunk rows)) chunk) as [Hshort|Hfull];
    simpl.
  - rewrite length_take in Hshort.
    rewrite take_ge by lia. by rewrite (right_id_L [] (++)).
  - rewrite length_take in Hfull.
    destruct (IH (drop chunk rows)) as [-> ->].
    + rewrite length_drop. lia.
    + by rewrite take_drop.
Qed.

Lemma sample_answers (c : PostgreCache Key Value nat) (query : Query)
    (timeout : Z) (cluster : option nat) (bound : Z) :
  cluster_answer incremental_policy db c query timeout cluster bound
  = match table_of cluster with
    | Returns table => (select table query bound, None)
    | Throws e => ([], Some e)
    end.
Proof.
  unfold cluster_answer, db. cbn [Portal Execute].
  destruct (Nat.ltb_spec 0 (chunk_size_ c)) as [Hpos|Hzero].
  - destruct (table_of cluster) as [table|e]; [|done].
    by destruct (portal_of_rows (S (length (select table query bound)))
                   (chunk_size_ c) (select table query bound) Hpos
                   (Nat.lt_succ_diag_r _)) as [-> ->].
  - by destruct (table_of cluster).
Qed.

(** The sample base class leaves the component as the constructor built
    it, but for the flag of the periodic updates. *)
Lemma sample_base_keeps (allowed : AllowedUpdateTypes)
    (built started : PostgreCache Key Value nat) :
  StartPeriodicUpdates (sample_base allowed) built = Returns started →
  clusters_ started = clusters_ built
  ∧ chunk_size_ started = chunk_size_ built
  ∧ full_update_timeout_ started = full_update_timeout_ built
  ∧ incremental_update_timeout_ started = incremental_update_timeout_ built
  ∧ correction_ started = correction_ built.
Proof. by intros [= <-]. Defined.

Lemma Update_throw_publishes_nothing_witness :
  let o := Update incremental_policy db (cache_with 3 2 (Some prior))
                  kFull 6 100 no_stats (scope_of 3) in
  let o' := Update throwing_policy db (cache_with 2 0 (Some prior))
                   kFull 6 100 no_stats (scope_of 3) in
  thrown o = Some (runtime_error "connection refused")
  ∧ cache_after o = cache_with 3 2 (Some prior)
  ∧ thrown o' = Some (not_std_exception "id is null")
  ∧ cache_after o' = cache_with 2 0 (Some prior).
Proof.
  split; [reflexivity |]. split; [|split; [reflexivity |]].
  - exact (proj1 (Update_throw_publishes_nothing incremental_policy db
                    (cache_with 3 2 (Some prior)) kFull 6 100 no_stats
                    (scope_of 3) (runtime_error "connection refused")
                    eq_refl)).
  - exact (proj1 (Update_throw_publishes_nothing throwing_policy db
                    (cache_with 2 0 (Some prior)) kFull 6 100 no_stats
                    (scope_of 3) (not_std_exception "id is null") eq_refl)).
Defined.

Lemma full_update_idempotent_witness :
  let o1 := Update full_only_policy db (cache_with 2 0 (Some prior))
                   kIncremental 6 100 no_stats (scope_of 12) in
  let o2 := Update full_only_policy db (cache_after o1)
                   kIncremental 6 200 no_stats (scope_of 3) in
  effective_type full_only_policy kIncremental = kFull
  ∧ db_calls o2 = db_calls o1.
Proof.
  split; [reflexivity |].
  exact (proj1 (full_update_idempotent full_only_policy db
                  (cache_with 2 0 (Some prior)) kIncremental 6 100 200
                  no_stats (scope_of 12) (scope_of 3) eq_refl)).
Defined.

Lemma incremental_update_replay_witness :
  let o1 := Update incremental_policy db (cache_with 2 0 (Some prior))
                   kIncremental 5 100 no_stats (scope_of 3) in
  let o2 := Update incremental_policy db (cache_after o1)
                   kIncremental 5 200 no_stats (scope_of 3) in
  kIncrementalUpdates (queries incremental_policy) = true
  ∧ published (cache_with 2 0 (Some prior)) = Some prior
  ∧ thrown o1 = None
  ∧ thrown o2 = None
  ∧ decoded incremental_policy (fetched_rows (db_calls o2))
    = decoded incremental_policy (fetched_rows (db_calls o1))
  ∧ published (cache_after o2) = published (cache_after o1).
Proof.
  do 5 (split; [reflexivity |]).
  exact (incremental_update_replay incremental_policy db
           (cache_with 2 0 (Some prior)) prior 5 5 100 200 no_stats no_stats
           (scope_of 3) (scope_of 3) eq_refl eq_refl eq_refl eq_refl eq_refl).
Defined.

Lemma CacheResults_order_irrelevant_witness :
  reverse shard0 ≡ₚ shard0
  ∧ NoDup (decoded incremental_policy (reverse shard0)).*1
  ∧ (CacheResults incremental_policy (reverse shard0) prior no_stats).2 = None
  ∧ CacheResults incremental_policy (reverse shard0) prior no_stats
    = CacheResults incremental_policy shard0 prior no_stats.
Proof.
  split; [apply reverse_Permutation |].
  split; [by apply (bool_decide_unpack _) |].
  split; [reflexivity |].
  apply (CacheResults_order_irrelevant incremental_policy).
  - apply reverse_Permutation.
  - by apply (bool_decide_unpack _).
  - reflexivity.
Defined.

Lemma chunking_is_transparent_witness :
  let o := Update incremental_policy db (cache_with 2 0 (Some prior))
                  kIncremental 5 100 no_stats (scope_of 3) in
  let o' := Update incremental_policy db (cache_with 2 2 (Some prior))
                   kIncremental 5 100 no_stats (scope_of 3) in
  (∀ query timeout cluster bound,
     cluster_answer incremental_policy db (cache_with 2 2 (Some prior))
                    query timeout cluster bound
     = cluster_answer incremental_policy db (cache_with 2 0 (Some prior))
                      query timeout cluster bound)
  ∧ escaped incremental_policy (fetched_rows (db_calls o)) = None
  ∧ locals_after o' = locals_after o.
Proof.
  assert (∀ query timeout cluster bound,
     cluster_answer incremental_policy db (cache_with 2 2 (Some prior))
                    query timeout cluster bound
     = cluster_answer incremental_policy db (cache_with 2 0 (Some prior))
                      query timeout cluster bound) as Hans
    by (intros; by rewrite !sample_answers).
  split; [exact Hans |]. split; [reflexivity |].
  exact (proj1 (chunking_is_transparent incremental_policy db
                  (cache_with 2 0 (Some prior)) (cache_with 2 2 (Some prior))
                  kIncremental 5 100 no_stats (scope_of 3)
                  eq_refl eq_refl eq_refl eq_refl eq_refl Hans eq_refl)).
Defined.

Lemma cold_incremental_update_witness :
  let o := Update incremental_policy db (cache_with 2 0 None)
                  kIncremental 50 100 no_stats (scope_of 3) in
  kIncrementalUpdates (queries incremental_policy) = true
  ∧ published (cache_with 2 0 None) = None
  ∧ thrown o = None
  ∧ fetched_rows (db_calls o) = []
  ∧ published (cache_after o) = None.
Proof.
  do 4 (split; [reflexivity |]).
  exact (proj1 (proj1 (cold_incremental_update incremental_policy db
                  (cache_with 2 0 None) 50 100 no_stats (scope_of 3)
                  eq_refl eq_refl eq_refl) eq_refl)).
Defined.

Lemma cpu_relax_iterations_kept_witness :
  let o := Update incremental_policy db (cache_with 2 0 (Some prior))
                  kIncremental 5 100 no_stats (scope_of 3) in
  over_kCpuRelaxThreshold (scope_of 3) (ElapsedTotal_parse (scope_of 3)) = false
  ∧ cpu_relax_iterations_ (cache_after o) = 0.
Proof.
  split; [reflexivity |].
  exact (cpu_relax_iterations_kept incremental_policy db
           (cache_with 2 0 (Some prior)) kIncremental 5 100 no_stats
           (scope_of 3) (or_intror (or_intror eq_refl))).
Defined.

Lemma statements_of_one_update_witness :
  let o := Update revision_policy db (cache_with 2 0 None)
                  kFull 6 100 no_stats (scope_of 3) in
  second_call ∈ db_calls o
  ∧ network_timeout (call_control second_call) = 60000%Z.
Proof.
  assert (second_call ∈ db_calls
            (Update revision_policy db (cache_with 2 0 None)
                    kFull 6 100 no_stats (scope_of 3))) as Hin
    by (by apply (list_elem_of_lookup_2 _ 1)).
  split; [exact Hin |].
  exact (proj1 (proj2 (statements_of_one_update revision_policy db
                  (cache_with 2 0 None) kFull 6 100 no_stats (scope_of 3)
                  second_call Hin))).
Defined.

Lemma constructed_component_asks_every_shard_witness :
  let c := mkCache None 0 true [Some 0; Some 1] 0 5000 1000 2 0 in
  let o := Update incremental_policy db c kFull 6 100 no_stats (scope_of 3) in
  PostgreCache_ctor incremental_policy (sample_base kOtherUpdateTypes)
    (mkConfig "sample-cache" None (Some 5000%Z) None (Some 2) (Some "pg"))
    (context 2)
  = Returns c
  ∧ thrown o = None
  ∧ length (db_calls o) = 2
  ∧ (∀ call, db_calls o !! 1 = Some call →
       call_cluster call = Some 1
       ∧ call_chunked call = true
       ∧ network_timeout (call_control call) = 5000%Z).
Proof.
  intros c o. subst o.
  destruct (constructed_component_asks_every_shard incremental_policy db
              (sample_base kOtherUpdateTypes)
              (mkConfig "sample-cache" None (Some 5000%Z) None (Some 2)
                        (Some "pg"))
              (context 2) c kFull 6 100 no_stats (scope_of 3) eq_refl)
    as (pgc & Hfind & Hlen & _ & Hcalls).
  { intros built started Hstart.
    destruct (sample_base_keeps _ _ _ Hstart) as (? & ? & ? & ? & _). done. }
  { reflexivity. }
  injection Hfind as <-.
  split; [reflexivity |]. split; [reflexivity |]. split; [exact Hlen |].
  intros call Hcall. destruct (Hcalls 1 call Hcall) as (Hcluster & Hrest).
  injection Hcluster as <-. done.
Defined.

Lemma constructed_correction_not_forward_witness :
  let c := mkCache None 0 true [Some 0; Some 1] 2000000 60000 1000 0 0 in
  PostgreCache_ctor incremental_policy (sample_base kOtherUpdateTypes)
    (mkConfig "sample-cache" (Some 2%Z) None None None (Some "pg"))
    (context 2)
  = Returns c
  ∧ (0 ≤ correction_ c < 2 ^ 63)%Z
  ∧ GetLastUpdated incremental_policy c 5000000 ∅ = 3000000%Z.
Proof.
  intros c.
  destruct (constructed_correction_not_forward incremental_policy
              (sample_base kOtherUpdateTypes)
              (mkConfig "sample-cache" (Some 2%Z) None None None (Some "pg"))
              (context 2) c 5000000 ∅ eq_refl)
    as (Hrange & _ & _ & Hbound).
  { intros built started Hstart.
    by destruct (sample_base_keeps _ _ _ Hstart) as (_ & _ & _ & _ & ?). }
  split; [reflexivity |]. split; [exact Hrange |].
  destruct (Hbound eq_refl) as [-> _]. reflexivity.
Defined.

Lemma PolicyChecker_accepts_witness :
  PolicyChecker sample_kSlave sample_kClusterHostRolesMask sample_traits = []
  ∧ t_ValueType sample_traits = true.
Proof.
  split; [reflexivity |].
  exact (proj1 (proj2 (PolicyChecker_accepts sample_kSlave
                  sample_kClusterHostRolesMask sample_traits eq_refl))).
Defined.

End BehaviourWitnesses.
